(** * Eye alignment: a shallow embedding of [src/eye_alignment/main.py]

    The module crops a batch of face images so that the midpoint between the
    eyes lands at the same place in every crop.  It has three functions:
    [find_mid_eye] (one call of the external face detector, reduced to a
    point), [align_eyes] (the crop arithmetic and the slicing) and [main]
    (length and shape checks, then the two above).

    Modelling choices, all read off the source:
    - a numpy image is a record of its shape [(height, width, *channels)] and
      its rows of pixels; a pixel is a parameter of the development;
    - numpy's float coordinates are binary64 numbers, Rocq's primitive
      [float]: [+], [-] and [/] round to nearest even, [mean] sums the rows
      from the first to the last and divides by their number, [max] and [min]
      fold [np.maximum] and [np.minimum] over the rows and let a NaN
      through;
    - [astype(int)] is the C conversion to a 64-bit integer: truncation toward
      zero, and the least 64-bit integer for a NaN, an infinity or a value out
      of range (what numpy gives on x86-64); the sum of two such integers
      wraps around;
    - Python's exceptions are the constructors of [exn]; a function that can
      raise returns [exn + A];
    - the batch given to [main] is a list, a tuple or an array of images;
    - the face detector is a parameter: a function from an image to a
      dictionary of faces.  [main] and [find_mid_eye] run in a small monad
      that records every image handed to the detector. *)

From Stdlib Require Import QArith ZArith Lia.
From Stdlib Require Import Ascii String DecimalString DecimalNat.
From Stdlib Require Import Floats Uint63.
From stdpp Require Import gmap strings list fin_maps.

Local Open Scope Z_scope.

(** Decimal constants such as [3.7] stand for the nearest binary64 number,
    as they do in Python. *)
#[local] Set Warnings "-inexact-float".

(** ** Binary64 numbers *)

(** The number a float stands for, counted in units of [2^-1074] (the
    smallest positive binary64 number), so that it is an integer.  An
    infinity counts as [2^1024], one step beyond the largest finite float; a
    NaN counts as 0. *)
Definition scaled (x : spec_float) : Z :=
  match x with
  | S754_zero _ | S754_nan => 0
  | S754_infinity s => cond_Zopp s (2 ^ 2098)
  | S754_finite s m e => cond_Zopp s (Z.pos m * 2 ^ (e + 1074))
  end.

(** A float that is a zero or has a mantissa and an exponent. *)
Definition SFfinite (x : spec_float) : bool :=
  match x with
  | S754_zero _ | S754_finite _ _ _ => true
  | _ => false
  end.

(** A float without a minus sign, a zero, an infinity or a NaN. *)
Definition not_negative (r : spec_float) : Prop :=
  match r with S754_finite true _ _ => False | _ => True end.

(** The number of units in 1. *)
Definition float_scale : positive := 2 ^ 1074.

(** The rational number a finite float stands for. *)
Definition F2Q (f : float) : Q := scaled (Prim2SF f) # float_scale.

(** Truncation toward zero. *)
Definition truncate (q : Q) : Z := Z.quot (Qnum q) (Z.pos (Qden q)).

(** The least 64-bit integer. *)
Definition INT64_MIN : Z := - 2 ^ 63.

(** Two's complement: the 64-bit integer congruent to [z]. *)
Definition wrap_int64 (z : Z) : Z := (z + 2 ^ 63) mod 2 ^ 64 - 2 ^ 63.

(** [a + b] on [np.int64] scalars. *)
Definition int64_add (a b : Z) : Z := wrap_int64 (a + b).

(** [float64.astype(int)]. *)
Definition astype_int (f : float) : Z :=
  if is_finite f then
    let z := truncate (F2Q f) in
    if (INT64_MIN <=? z) && (z <? 2 ^ 63) then z else INT64_MIN
  else INT64_MIN.

(** The conversion of a dimension of an image (an [int64] that is not
    negative) to [float64], rounding to nearest. *)
Definition float_of_nat (n : nat) : float :=
  of_uint63 (Uint63.of_Z (Z.of_nat n)).

(** [np.maximum] and [np.minimum] on two floats: a NaN on the left stays,
    a NaN on the right is taken. *)
Definition np_maximum (a b : float) : float :=
  if (b <=? a)%float || is_nan a then a else b.

Definition np_minimum (a b : float) : float :=
  if (a <=? b)%float || is_nan a then a else b.

(** The sum of a column, first row first. *)
Definition np_sum (l : list float) : float :=
  match l with
  | [] => 0%float
  | x :: xs => foldl PrimFloat.add x xs
  end.

Definition np_mean (l : list float) : float :=
  (np_sum l / float_of_nat (length l))%float.

(** The operation rounds nothing and stays finite. *)
Definition exact_sub (a b : float) : Prop :=
  is_finite a = true ∧ is_finite b = true ∧ is_finite (a - b) = true ∧
  (F2Q (a - b) == F2Q a - F2Q b)%Q.

Definition exact_add (a b : float) : Prop :=
  is_finite a = true ∧ is_finite b = true ∧ is_finite (a + b) = true ∧
  (F2Q (a + b) == F2Q a + F2Q b)%Q.

(** ** Coordinates *)

(** A row of an [N x 2] float array: [(x, y)]. *)
Definition point : Type := float * float.

Definition padd (p q : point) : point := (p.1 + q.1, p.2 + q.2)%float.
Definition psub (p q : point) : point := (p.1 - q.1, p.2 - q.2)%float.

Definition pastype_int (p : point) : Z * Z := (astype_int p.1, astype_int p.2).

(** [a.mean(axis=0)] of an [N x 2] array. *)
Definition mean_axis0 (a : list point) : point :=
  (np_mean (fst <$> a), np_mean (snd <$> a)).

(** [a.max(axis=0)] and [a.min(axis=0)]; numpy raises [ValueError] on an
    array without rows, which is [None] here. *)
Definition pmax (p q : point) : point :=
  (np_maximum p.1 q.1, np_maximum p.2 q.2).
Definition pmin (p q : point) : point :=
  (np_minimum p.1 q.1, np_minimum p.2 q.2).

Definition max_axis0 (a : list point) : option point :=
  match a with
  | [] => None
  | p :: ps => Some (foldl pmax p ps)
  end.

Definition min_axis0 (a : list point) : option point :=
  match a with
  | [] => None
  | p :: ps => Some (foldl pmin p ps)
  end.

(** Points of the real plane, and their equality up to the representation
    of the fractions. *)
Definition qpoint : Type := Q * Q.

Definition peq (p q : qpoint) : Prop := (p.1 == q.1)%Q ∧ (p.2 == q.2)%Q.

Definition exact_psub (p q : point) : Prop :=
  exact_sub p.1 q.1 ∧ exact_sub p.2 q.2.

(** ** Slices *)

(** Python's resolution of one bound of [l[lo:hi]] against a length: a
    negative bound counts from the end, and the result is clipped to
    [0 .. n]. *)
Definition slice_index (i : Z) (n : nat) : nat :=
  if i <? 0 then Z.to_nat (Z.max 0 (i + Z.of_nat n))
  else Z.to_nat (Z.min i (Z.of_nat n)).

(** Number of elements selected by [lo:hi] on a sequence of length [n]. *)
Definition slice_len (lo hi : Z) (n : nat) : nat :=
  (slice_index hi n - slice_index lo n)%nat.

(** [l[lo:hi]]. *)
Definition py_slice {A} (lo hi : Z) (l : list A) : list A :=
  take (slice_len lo hi (length l)) (drop (slice_index lo (length l)) l).

(** ** Images *)

(** An [np.ndarray] holding an image: [shape = (height, width, *channels)]. *)
Record ndarray (pixel : Type) : Type := mk_ndarray {
  height : nat;
  width : nat;
  channels : list nat;
  pixels : list (list pixel)
}.
Arguments mk_ndarray {pixel} _ _ _ _.
Arguments height {pixel} _.
Arguments width {pixel} _.
Arguments channels {pixel} _.
Arguments pixels {pixel} _.

(** [img.shape] *)
Definition shape {pixel} (img : ndarray pixel) : list nat :=
  height img :: width img :: channels img.

(** The rows of an array are as many and as long as its shape says. *)
Definition well_formed {pixel} (img : ndarray pixel) : Prop :=
  length (pixels img) = height img ∧
  Forall (λ row, length row = width img) (pixels img).

(** [img[y_lo:y_hi, x_lo:x_hi]] *)
Definition getitem {pixel} (img : ndarray pixel) (y_lo y_hi x_lo x_hi : Z)
    : ndarray pixel :=
  {| height := slice_len y_lo y_hi (height img);
     width := slice_len x_lo x_hi (width img);
     channels := channels img;
     pixels := py_slice x_lo x_hi <$> py_slice y_lo y_hi (pixels img) |}.

(** ** Exceptions *)

Inductive exn : Type :=
  | FaceDetectionError (msg : string)
  | ValueError (msg : string)
  | KeyError (key : string)
  | IndexError (msg : string)
  | AttributeError (msg : string).

(** ** [align_eyes] *)

Section AlignEyes.
Context {pixel : Type}.
Implicit Types (img : ndarray pixel) (imgs : list (ndarray pixel)).
Implicit Types (mid_eyes : list point).

(** [np.array(img.shape[:2][::-1])], as it enters the float arithmetic. *)
Definition imshape img : point :=
  (float_of_nat (width img), float_of_nat (height img)).

Definition dist_mid_eye mid_eyes : point := mean_axis0 mid_eyes.

(** [dist_mid_eye[None, :] - mid_eyes] *)
Definition shifts mid_eyes : list point :=
  psub (dist_mid_eye mid_eyes) <$> mid_eyes.

Definition bound_low mid_eyes : option point := max_axis0 (shifts mid_eyes).

Definition bound_low_to_high img mid_eyes : option (Z * Z) :=
  lo ← bound_low mid_eyes;
  mn ← min_axis0 (shifts mid_eyes);
  Some (pastype_int (psub (padd (imshape img) mn) lo)).

(** [(bound_low - shift).astype(int)]: [(x_crop_low, y_crop_low)]. *)
Definition crop_low (lo shift : point) : Z * Z := pastype_int (psub lo shift).

(** One turn of the loop: the slice appended to [cropped_imgs]. *)
Definition crop_img (lo : point) (size : Z * Z) img (shift : point)
    : ndarray pixel :=
  let '(x_crop_low, y_crop_low) := crop_low lo shift in
  let x_crop_high := int64_add x_crop_low size.1 in
  let y_crop_high := int64_add y_crop_low size.2 in
  getitem img y_crop_low y_crop_high x_crop_low x_crop_high.

(** [imgs] stands for the items of the sequence; the message of the
    [IndexError] is that of a list. *)
Definition align_eyes imgs mid_eyes : exn + list (ndarray pixel) :=
  match imgs with
  | [] => inl (IndexError "list index out of range")
  | img0 :: _ =>
      match bound_low mid_eyes, bound_low_to_high img0 mid_eyes with
      | Some lo, Some size =>
          inr (zip_with (crop_img lo size) imgs (shifts mid_eyes))
      | _, _ =>
          inl (ValueError
            "zero-size array to reduction operation maximum which has no identity")
      end
  end.
End AlignEyes.

(** ** The crop rectangle *)

(** The rectangle [origin .. origin + size] lies inside the image
    ([origin] and [size] are [(x, y)] pairs). *)
Definition rect_in_bounds {pixel} (origin size : Z * Z) (img : ndarray pixel)
    : Prop :=
  0 ≤ origin.1 ∧ 0 ≤ origin.2 ∧
  origin.1 + size.1 ≤ Z.of_nat (width img) ∧
  origin.2 + size.2 ≤ Z.of_nat (height img).

(** The rectangle that one turn of the loop slices out of [img], with the
    bounds as the loop holds them, lies inside the image. *)
Definition crop_fits {pixel} (lo : point) (size : Z * Z) (img : ndarray pixel)
    (shift : point) : Prop :=
  let '(x_crop_low, y_crop_low) := crop_low lo shift in
  let x_crop_high := int64_add x_crop_low size.1 in
  let y_crop_high := int64_add y_crop_low size.2 in
  0 ≤ x_crop_low ≤ x_crop_high ∧ x_crop_high ≤ Z.of_nat (width img) ∧
  0 ≤ y_crop_low ≤ y_crop_high ∧ y_crop_high ≤ Z.of_nat (height img).

(** Where a point of the source lands in a crop taken at [origin]. *)
Definition eye_offset (mid_eye : point) (origin : Z * Z) : qpoint :=
  (F2Q mid_eye.1 - inject_Z origin.1, F2Q mid_eye.2 - inject_Z origin.2)%Q.

(** Two points that differ by a whole number of pixels on both axes. *)
Definition whole_pixels_apart (p q : point) : Prop :=
  ∃ dx dy : Z,
    (F2Q p.1 - F2Q q.1 == inject_Z dx)%Q ∧ (F2Q p.2 - F2Q q.2 == inject_Z dy)%Q.

(** ** The detector and the monad of [main] *)

(** What [RetinaFace.detect_faces] returns for one face; the other entries
    of the record (score, facial area, nose, mouth) are not read. *)
Record landmarks_t : Type := mk_landmarks {
  left_eye : point;
  right_eye : point
}.

Record face : Type := mk_face { landmarks : landmarks_t }.

(** [repr] of an [int] and of a shape tuple, as an f-string prints them. *)
Definition repr_int (n : nat) : string :=
  NilEmpty.string_of_uint (Nat.to_uint n).

Definition repr_shape (t : list nat) : string :=
  "(" +:+ String.concat ", " (repr_int <$> t) +:+ ")".

(** [f"Incompatible shapes {s} and {s0}"] *)
Definition incompatible_shapes (s s0 : list nat) : string :=
  "Incompatible shapes " +:+ repr_shape s +:+ " and " +:+ repr_shape s0.

(** [np.mean([np.array(left_eye), np.array(right_eye)], axis=0)] *)
Definition mid_eye (f : face) : point :=
  mean_axis0 [left_eye (landmarks f); right_eye (landmarks f)].

(** The sequence types of a batch: a list and a numpy array (of one more
    dimension, or of objects) have a [copy] method, a tuple has none.  The
    three agree on [len], on indexing and on iteration. *)
Inductive container : Type := PyList | PyTuple | NdArray.

Record batch (pixel : Type) : Type := mk_batch {
  kind : container;
  items : list (ndarray pixel)
}.
Arguments mk_batch {pixel} _ _.
Arguments kind {pixel} _.
Arguments items {pixel} _.

(** [imgs.copy()] *)
Definition copy {pixel} (imgs : batch pixel) : exn + batch pixel :=
  match kind imgs with
  | PyList | NdArray => inr imgs
  | PyTuple => inl (AttributeError "'tuple' object has no attribute 'copy'")
  end.

Section Main.
Context {pixel : Type}.
Implicit Types (img : ndarray pixel) (imgs : list (ndarray pixel)).

(** [RetinaFace.detect_faces]: a dictionary from face identifiers to
    faces. *)
Variable detect_faces : ndarray pixel → gmap string face.

(** A computation threads the log of the images given to the detector
    (oldest first) and ends with a value or with a raised exception. *)
Definition M (A : Type) : Type :=
  list (ndarray pixel) → (exn + A) * list (ndarray pixel).

Definition ret {A} (a : A) : M A := λ log, (inr a, log).
Definition raise {A} (e : exn) : M A := λ log, (inl e, log).
Definition bind {A B} (c : M A) (k : A → M B) : M B :=
  λ log, match c log with
         | (inr a, log') => k a log'
         | (inl e, log') => (inl e, log')
         end.
Definition lift {A} (r : exn + A) : M A := λ log, (r, log).

Local Notation "'let*' x ':=' c 'in' k" := (bind c (λ x, k))
  (at level 10, x name, c at level 100, k at level 200).

Definition detect img : M (gmap string face) :=
  λ log, (inr (detect_faces img), log ++ [img]).

(** [[f(x) for x in xs]]: left to right, the first exception ends it. *)
Fixpoint for_each {A B} (f : A → M B) (xs : list A) : M (list B) :=
  match xs with
  | [] => ret []
  | x :: xs' =>
      let* y := f x in
      let* ys := for_each f xs' in
      ret (y :: ys)
  end.

Definition find_mid_eye img : M point :=
  let* faces := detect img in
  if (size faces =? 0)%nat then
    raise (FaceDetectionError "No face detected.")
  else if (2 <=? size faces)%nat then
    raise (FaceDetectionError "Too many faces detected.")
  else
    match faces !! "face_1" with
    | None => raise (KeyError "face_1")
    | Some f => ret (mid_eye f)
    end.

(** The loop of [main] over the shapes: the first image whose shape is
    not [shape0] raises. *)
Fixpoint check_shapes (shape0 : list nat) imgs : M unit :=
  match imgs with
  | [] => ret tt
  | img :: imgs' =>
      if decide (shape img ≠ shape0) then
        raise (ValueError (incompatible_shapes (shape img) shape0))
      else check_shapes shape0 imgs'
  end.

(** [align_eyes] returns a list, whatever the sequence was. *)
Definition main (imgs : batch pixel) : M (batch pixel) :=
  if (length (items imgs) <=? 1)%nat then lift (copy imgs)
  else
    match items imgs with
    | [] => raise (IndexError "list index out of range")
    | img0 :: _ =>
        let* _ := check_shapes (shape img0) (items imgs) in
        let* mid_eyes := for_each find_mid_eye (items imgs) in
        let* cropped_imgs := lift (align_eyes (items imgs) mid_eyes) in
        ret (mk_batch PyList cropped_imgs)
    end.
End Main.

(** ** Tactics *)

(** Settles what a comparison of two integers gives. *)
Ltac by_compare :=
  symmetry;
  match goal with
  | |- (?a ?= ?b) = _ => destruct (Z.compare_spec a b); first [done|lia]
  end.

(** ** Sample batches *)

(** One-row grey images; the first pixel of each is read by the sample
    detectors below. *)
Definition img_a : ndarray Z := mk_ndarray 1 4 [] [[0; 11; 12; 13]].
Definition img_b : ndarray Z := mk_ndarray 1 4 [] [[6; 21; 22; 23]].
Definition img_c : ndarray Z := mk_ndarray 1 4 [] [[2; 31; 32; 33]].
Definition img_wide : ndarray Z := mk_ndarray 1 5 [] [[1; 41; 42; 43; 44]].

(** A one-row image [w] pixels wide; pixel [c] has the value [c]. *)
Definition img_row (w : nat) : ndarray Z :=
  mk_ndarray 1 w [] [Z.of_nat <$> seq 0 w].

(** A pixel value of the samples as a coordinate. *)
Definition float_of_pixel (x : Z) : float := float_of_nat (Z.to_nat x).

(** A detector for the samples: it finds one face, files it under [key], and
    puts both eyes at [(x, 0)] where [x] is the first pixel of the image; it
    finds no face in an image without pixels. *)
Definition probe_detect (key : string) (img : ndarray Z) : gmap string face :=
  match pixels img with
  | (x :: _) :: _ =>
      let eye := (float_of_pixel x, 0%float) in
      {[ key := mk_face (mk_landmarks eye eye) ]}
  | _ => ∅
  end.

(** The midpoints of the scenario with three [100 x 100 x 3] images. *)
Definition scenario_mid_eyes : list point :=
  [(40, 50); (50, 50); (60, 50)]%float.

(** An image in which the detector below finds no face. *)
Definition img_blank : ndarray Z := mk_ndarray 1 4 [] [[-1; 51; 52; 53]].

(** A second detector for the samples, read off the first pixel [x] of the
    image: no face when [x] is negative, two faces when [x] is 100 or more,
    and otherwise one face under ["face_1"] with its eyes at [(x, 0)] and
    [(x + 1, 0)]. *)
Definition count_detect (img : ndarray Z) : gmap string face :=
  match pixels img with
  | (x :: _) :: _ =>
      let f := mk_face (mk_landmarks (float_of_pixel x, 0%float)
                                     (float_of_pixel (x + 1), 0%float)) in
      if x <? 0 then ∅
      else if 100 <=? x then {[ "face_1" := f; "face_2" := f ]}
      else {[ "face_1" := f ]}
  | _ => ∅
  end.

(** The detector finds one face in the image and files it under
    ["face_1"]. *)
Definition one_face {pixel} (detect_faces : ndarray pixel → gmap string face)
    (img : ndarray pixel) : Prop :=
  size (detect_faces img) = 1%nat ∧ is_Some (detect_faces img !! "face_1").

(** * Properties *)

(** ** Binary64: order *)

Lemma digits2_pos_size (m : positive) : digits2_pos m = Pos.size m.
Proof. induction m as [m IH|m IH|]; simpl; by rewrite ?IH. Qed.

Lemma digits2_pos_bounds (m : positive) :
  2 ^ (Z.pos (digits2_pos m) - 1) ≤ Z.pos m < 2 ^ Z.pos (digits2_pos m).
Proof.
  rewrite digits2_pos_size. split.
  - pose proof (Pos.size_le m) as H.
    assert (2 ^ Z.pos (Pos.size m) ≤ 2 * Z.pos m) as H'.
    { rewrite <- Pos2Z.inj_pow. change (Z.pos (2 ^ Pos.size m) ≤ Z.pos (m~0)). lia. }
    replace (Z.pos (Pos.size m)) with (Z.succ (Z.pos (Pos.size m) - 1)) in H' by lia.
    rewrite Z.pow_succ_r in H' by lia. lia.
  - pose proof (Pos.size_gt m) as H. rewrite <- Pos2Z.inj_pow. lia.
Qed.

(** What it takes to be a binary64 number: an exponent between -1074 and
    971, a mantissa below [2^53], and a mantissa of 53 bits unless the
    exponent is the least one. *)
Lemma bounded_inv (m : positive) (e : Z) :
  bounded prec emax m e = true →
  -1074 ≤ e ≤ 971 ∧ Z.pos m < 2 ^ 53 ∧ (-1074 < e → 2 ^ 52 ≤ Z.pos m).
Proof.
  unfold bounded, canonical_mantissa, fexp, SpecFloat.emin, prec, emax.
  rewrite andb_true_iff, Z.eqb_eq, Z.leb_le.
  intros [Hc He]. pose proof (digits2_pos_bounds m) as [Hlo Hhi].
  set (d := Z.pos (digits2_pos m)) in *.
  assert (0 < d) by (unfold d; lia).
  split; [lia|]. split.
  - assert (d ≤ 53) by lia.
    eapply Z.lt_le_trans; [exact Hhi|]. apply Z.pow_le_mono_r; lia.
  - intros Hgt. assert (d = 53) as Hd by lia. rewrite Hd in Hlo. exact Hlo.
Qed.

Lemma scaled_finite_bounds (m : positive) (e : Z) :
  bounded prec emax m e = true →
  0 < Z.pos m * 2 ^ (e + 1074) < 2 ^ 2098.
Proof.
  intros (He & Hm & _)%bounded_inv. split.
  - apply Z.mul_pos_pos; [lia|]. apply Z.pow_pos_nonneg; lia.
  - assert (2 ^ (e + 1074) ≤ 2 ^ 2045) by (apply Z.pow_le_mono_r; lia).
    assert (0 < 2 ^ (e + 1074)) by (apply Z.pow_pos_nonneg; lia).
    change (2 ^ 2098) with (2 ^ 53 * 2 ^ 2045). nia.
Qed.

Lemma scaled_lt_aux (a b c P K : Z) :
  0 < P → 2 ≤ K → a < 2 * c → c ≤ b → 0 ≤ b → a * P < b * (P * K).
Proof.
  intros HP HK Ha Hb Hb0.
  apply (Z.lt_le_trans _ (2 * c * P)); [nia|].
  apply (Z.le_trans _ (2 * b * P)); [nia|].
  assert (0 ≤ b * P) by nia. nia.
Qed.

(** The order of two positive binary64 numbers is the order of their
    exponents, then of their mantissas. *)
Lemma scaled_lex (m1 m2 : positive) (e1 e2 : Z) :
  bounded prec emax m1 e1 = true → bounded prec emax m2 e2 = true →
  match e1 ?= e2 with
  | Lt => Lt | Gt => Gt | Eq => Pos.compare_cont Eq m1 m2
  end = (Z.pos m1 * 2 ^ (e1 + 1074) ?= Z.pos m2 * 2 ^ (e2 + 1074)).
Proof.
  intros (He1 & Hm1 & Hn1)%bounded_inv (He2 & Hm2 & Hn2)%bounded_inv.
  assert (∀ m m' e e', -1074 ≤ e → e < e' → Z.pos m < 2 ^ 53 → 2 ^ 52 ≤ Z.pos m' →
    Z.pos m * 2 ^ (e + 1074) < Z.pos m' * 2 ^ (e' + 1074)) as Hlt.
  { intros m m' e e' He Hee Hm Hm'.
    replace (e' + 1074) with ((e + 1074) + (e' - e)) by lia.
    rewrite (Z.pow_add_r 2 (e + 1074) (e' - e)) by lia.
    assert (0 < 2 ^ (e + 1074)) by (apply Z.pow_pos_nonneg; lia).
    assert (2 ^ 1 ≤ 2 ^ (e' - e)) by (apply Z.pow_le_mono_r; lia).
    change (2 ^ 1) with 2 in *. change (2 ^ 53) with (2 * 2 ^ 52) in Hm.
    eapply scaled_lt_aux; eauto; lia. }
  destruct (Z.compare_spec e1 e2) as [->|Hee|Hee]; symmetry.
  - assert (0 < 2 ^ (e2 + 1074)) by (apply Z.pow_pos_nonneg; lia).
    change (Pos.compare_cont Eq m1 m2) with (Z.pos m1 ?= Z.pos m2).
    destruct (Z.compare_spec (Z.pos m1) (Z.pos m2)) as [->|Hm|Hm].
    + apply Z.compare_refl.
    + apply Z.compare_lt_iff. nia.
    + apply Z.compare_gt_iff. nia.
  - apply Z.compare_lt_iff, Hlt; lia.
  - apply Z.compare_gt_iff, Hlt; lia.
Qed.

(** The comparison of binary64 numbers is the comparison of the integers
    they stand for. *)
Lemma SFcompare_scaled (x y : spec_float) :
  valid_binary x = true → valid_binary y = true →
  x ≠ S754_nan → y ≠ S754_nan →
  SFcompare x y = Some (scaled x ?= scaled y).
Proof.
  intros Hx Hy Nx Ny.
  destruct x as [sx|sx| |sx mx ex], y as [sy|sy| |sy my ey]; try done;
    cbn [valid_binary scaled SFcompare] in *;
    try pose proof (scaled_finite_bounds _ _ Hx) as [? ?];
    try pose proof (scaled_finite_bounds _ _ Hy) as [? ?];
    f_equal.
  - destruct sy; cbn [cond_Zopp]; by_compare.
  - destruct sy; cbn [cond_Zopp]; by_compare.
  - destruct sx; cbn [cond_Zopp]; by_compare.
  - destruct sx, sy; cbn [cond_Zopp]; by_compare.
  - destruct sx, sy; cbn [cond_Zopp]; by_compare.
  - destruct sx; cbn [cond_Zopp]; by_compare.
  - destruct sx, sy; cbn [cond_Zopp]; by_compare.
  - destruct sx, sy; cbn [cond_Zopp]; try by_compare.
    + rewrite Z.compare_opp, <- (scaled_lex my mx ey ex Hy Hx).
      rewrite (Z.compare_antisym ex ey), (Pos.compare_cont_antisym mx my Eq).
      by destruct (ex ?= ey).
    + apply scaled_lex; assumption.
Qed.

Lemma nan_or_not (x : spec_float) : x = S754_nan ∨ x ≠ S754_nan.
Proof. destruct x; (by left) || (by right). Qed.

Lemma is_nan_spec (f : float) : is_nan f = true ↔ Prim2SF f = S754_nan.
Proof.
  unfold is_nan. rewrite FloatAxioms.eqb_spec. unfold SFeqb.
  destruct (nan_or_not (Prim2SF f)) as [E|E].
  - rewrite E. done.
  - rewrite (SFcompare_scaled _ _ (Prim2SF_valid f) (Prim2SF_valid f) E E).
    rewrite Z.compare_refl. split; [done|]. intros; contradiction.
Qed.

Lemma is_finite_spec (f : float) : is_finite f = SFfinite (Prim2SF f).
Proof.
  unfold is_finite, is_infinity.
  rewrite FloatAxioms.eqb_spec, abs_spec.
  change (Prim2SF infinity) with (S754_infinity false).
  destruct (is_nan f) eqn:En.
  - apply is_nan_spec in En. by rewrite En.
  - assert (Prim2SF f ≠ S754_nan) as Hn.
    { intros E%is_nan_spec. congruence. }
    by destruct (Prim2SF f) as [[]|[]| |[] m e].
Qed.

Lemma is_finite_not_nan (f : float) : is_finite f = true → is_nan f = false.
Proof.
  rewrite is_finite_spec. destruct (is_nan f) eqn:En; [|done].
  apply is_nan_spec in En. by rewrite En.
Qed.

Lemma leb_scaled (a b : float) :
  (a <=? b)%float = true ↔
  is_nan a = false ∧ is_nan b = false ∧ scaled (Prim2SF a) ≤ scaled (Prim2SF b).
Proof.
  rewrite FloatAxioms.leb_spec. unfold SFleb.
  destruct (is_nan a) eqn:Ea.
  { apply is_nan_spec in Ea. rewrite Ea. simpl. split; [done|]. by intros [? _]. }
  destruct (is_nan b) eqn:Eb.
  { apply is_nan_spec in Eb. rewrite Eb.
    split; [by destruct (Prim2SF a)|]. by intros (_ & ? & _). }
  rewrite (SFcompare_scaled _ _ (Prim2SF_valid a) (Prim2SF_valid b)).
  - rewrite <- Z.compare_le_iff.
    destruct (scaled (Prim2SF a) ?= scaled (Prim2SF b));
      (split; [intros ?; by split_and?|intros (_ & _ & ?); by try congruence]).
  - intros E%is_nan_spec. congruence.
  - intros E%is_nan_spec. congruence.
Qed.

Lemma leb_total (a b : float) :
  is_nan a = false → is_nan b = false →
  (a <=? b)%float = false → (b <=? a)%float = true.
Proof.
  intros Ha Hb Hab. apply leb_scaled. split_and!; try done.
  destruct (Z.le_gt_cases (scaled (Prim2SF a)) (scaled (Prim2SF b))) as [H|H]; [|lia].
  assert ((a <=? b)%float = true) by (by apply leb_scaled). congruence.
Qed.

Lemma leb_trans (a b c : float) :
  (a <=? b)%float = true → (b <=? c)%float = true → (a <=? c)%float = true.
Proof. rewrite !leb_scaled. intros (?&?&?) (?&?&?). split_and!; try done. lia. Qed.

Lemma leb_refl (a : float) : is_nan a = false → (a <=? a)%float = true.
Proof. intros. apply leb_scaled. split_and!; try done. Qed.

Lemma leb_not_nan (a b : float) :
  (a <=? b)%float = true → is_nan a = false ∧ is_nan b = false.
Proof. rewrite leb_scaled. by intros (? & ? & _). Qed.

(** ** Column-wise maximum and minimum *)

(** The fold of [np.maximum] is a NaN or is at least every entry. *)
Lemma foldl_np_maximum (x : float) (xs : list float) :
  is_nan (foldl np_maximum x xs) = true ∨
  Forall (λ s, (s <=? foldl np_maximum x xs)%float = true) (x :: xs).
Proof.
  revert x. induction xs as [|y ys IH]; intros x; simpl.
  - destruct (is_nan x) eqn:E; [by left|right].
    constructor; [by apply leb_refl|constructor].
  - destruct (IH (np_maximum x y)) as [H|H]; [by left|right].
    set (lo := foldl np_maximum (np_maximum x y) ys) in *.
    apply Forall_cons in H as [Hacc H].
    unfold np_maximum in Hacc.
    destruct ((y <=? x)%float || is_nan x) eqn:E.
    + apply leb_not_nan in Hacc as Hn. destruct Hn as [Hn _].
      rewrite Hn, orb_false_r in E.
      constructor; [done|]. constructor; [|done]. by apply leb_trans with x.
    + apply orb_false_iff in E as [E1 E2].
      constructor; [|by constructor].
      apply leb_trans with y; [|done].
      apply leb_total; try done. by apply leb_not_nan in Hacc as [? _].
Qed.

(** The fold of [np.minimum] is a NaN or is at most every entry. *)
Lemma foldl_np_minimum (x : float) (xs : list float) :
  is_nan (foldl np_minimum x xs) = true ∨
  Forall (λ s, (foldl np_minimum x xs <=? s)%float = true) (x :: xs).
Proof.
  revert x. induction xs as [|y ys IH]; intros x; simpl.
  - destruct (is_nan x) eqn:E; [by left|right].
    constructor; [by apply leb_refl|constructor].
  - destruct (IH (np_minimum x y)) as [H|H]; [by left|right].
    set (mn := foldl np_minimum (np_minimum x y) ys) in *.
    apply Forall_cons in H as [Hacc H].
    unfold np_minimum in Hacc.
    destruct ((x <=? y)%float || is_nan x) eqn:E.
    + apply leb_not_nan in Hacc as Hn. destruct Hn as [_ Hn].
      rewrite Hn, orb_false_r in E.
      constructor; [done|]. constructor; [|done]. by apply leb_trans with x.
    + apply orb_false_iff in E as [E1 E2].
      constructor; [|by constructor].
      apply leb_trans with y; [done|].
      apply leb_total; try done. by apply leb_not_nan in Hacc as [_ ?].
Qed.

Lemma foldl_pmax_fst (p : point) (ps : list point) :
  (foldl pmax p ps).1 = foldl np_maximum p.1 (fst <$> ps).
Proof. revert p. induction ps as [|q ps IH]; intros p; [done|]. simpl. by rewrite IH. Qed.

Lemma foldl_pmax_snd (p : point) (ps : list point) :
  (foldl pmax p ps).2 = foldl np_maximum p.2 (snd <$> ps).
Proof. revert p. induction ps as [|q ps IH]; intros p; [done|]. simpl. by rewrite IH. Qed.

Lemma foldl_pmin_fst (p : point) (ps : list point) :
  (foldl pmin p ps).1 = foldl np_minimum p.1 (fst <$> ps).
Proof. revert p. induction ps as [|q ps IH]; intros p; [done|]. simpl. by rewrite IH. Qed.

Lemma foldl_pmin_snd (p : point) (ps : list point) :
  (foldl pmin p ps).2 = foldl np_minimum p.2 (snd <$> ps).
Proof. revert p. induction ps as [|q ps IH]; intros p; [done|]. simpl. by rewrite IH. Qed.

(** [a.max(axis=0)] is, on each axis, a NaN or at least every row. *)
Lemma max_axis0_ge (a : list point) (hi q : point) :
  max_axis0 a = Some hi → q ∈ a →
  (is_nan hi.1 = true ∨ (q.1 <=? hi.1)%float = true) ∧
  (is_nan hi.2 = true ∨ (q.2 <=? hi.2)%float = true).
Proof.
  destruct a as [|p ps]; [done|]. intros [= <-] Hq.
  rewrite foldl_pmax_fst, foldl_pmax_snd. split.
  - destruct (foldl_np_maximum p.1 (fst <$> ps)) as [H|H]; [by left|right].
    rewrite Forall_forall in H. apply H.
    change (q.1 ∈ fst <$> p :: ps). by apply list_elem_of_fmap_2.
  - destruct (foldl_np_maximum p.2 (snd <$> ps)) as [H|H]; [by left|right].
    rewrite Forall_forall in H. apply H.
    change (q.2 ∈ snd <$> p :: ps). by apply list_elem_of_fmap_2.
Qed.

(** [a.min(axis=0)] is, on each axis, a NaN or at most every row. *)
Lemma min_axis0_le (a : list point) (lo q : point) :
  min_axis0 a = Some lo → q ∈ a →
  (is_nan lo.1 = true ∨ (lo.1 <=? q.1)%float = true) ∧
  (is_nan lo.2 = true ∨ (lo.2 <=? q.2)%float = true).
Proof.
  destruct a as [|p ps]; [done|]. intros [= <-] Hq.
  rewrite foldl_pmin_fst, foldl_pmin_snd. split.
  - destruct (foldl_np_minimum p.1 (fst <$> ps)) as [H|H]; [by left|right].
    rewrite Forall_forall in H. apply H.
    change (q.1 ∈ fst <$> p :: ps). by apply list_elem_of_fmap_2.
  - destruct (foldl_np_minimum p.2 (snd <$> ps)) as [H|H]; [by left|right].
    rewrite Forall_forall in H. apply H.
    change (q.2 ∈ snd <$> p :: ps). by apply list_elem_of_fmap_2.
Qed.

(** The fold of [np.maximum] returns one of the entries. *)
Lemma foldl_np_maximum_elem (x : float) (xs : list float) :
  foldl np_maximum x xs ∈ x :: xs.
Proof.
  revert x. induction xs as [|y ys IH]; intros x; simpl; [by left|].
  specialize (IH (np_maximum x y)).
  apply elem_of_cons in IH as [-> | IH].
  - unfold np_maximum. destruct (_ || _); [by left | right; by left].
  - right. by right.
Qed.

(** [a.max(axis=0)] is, on each axis, the coordinate of some row. *)
Lemma max_axis0_attained (a : list point) (hi : point) :
  max_axis0 a = Some hi →
  (∃ q, q ∈ a ∧ q.1 = hi.1) ∧ (∃ q, q ∈ a ∧ q.2 = hi.2).
Proof.
  destruct a as [|p ps]; [done|]. intros [= <-].
  rewrite foldl_pmax_fst, foldl_pmax_snd. split.
  - pose proof (foldl_np_maximum_elem p.1 (fst <$> ps)) as H.
    change (p.1 :: (fst <$> ps)) with (fst <$> p :: ps) in H.
    apply list_elem_of_fmap in H as (q & Hq & Hin). by exists q.
  - pose proof (foldl_np_maximum_elem p.2 (snd <$> ps)) as H.
    change (p.2 :: (snd <$> ps)) with (snd <$> p :: ps) in H.
    apply list_elem_of_fmap in H as (q & Hq & Hin). by exists q.
Qed.

(** ** Binary64: the sign of a difference *)

Lemma binary_round_aux_sign (mx ex : Z) (lx : location) :
  not_negative (binary_round_aux prec emax false mx ex lx).
Proof.
  unfold binary_round_aux.
  destruct (shr_fexp prec emax mx ex lx) as [mrs' e'].
  destruct (shr_fexp prec emax _ e' loc_Exact) as [mrs'' e''].
  destruct (shr_m mrs''); [done| |done].
  by destruct (e'' <=? emax - prec).
Qed.

Lemma binary_normalize_sign (d e : Z) :
  0 ≤ d → not_negative (binary_normalize prec emax d e false).
Proof.
  intros Hd. destruct d as [|d|d]; [done| |lia].
  unfold binary_normalize, binary_round.
  destruct (shl_align _ _ _) as [mz ez]. apply binary_round_aux_sign.
Qed.

Lemma pos_iter_xO (m p : positive) :
  Z.pos (Pos.iter xO m p) = Z.pos m * 2 ^ Z.pos p.
Proof.
  induction p as [|p IH] using Pos.peano_ind.
  - simpl. lia.
  - rewrite Pos.iter_succ, Pos2Z.inj_succ, Z.pow_succ_r by lia.
    rewrite Pos2Z.inj_xO, IH. lia.
Qed.

(** Aligning a mantissa to a smaller exponent keeps the number. *)
Lemma shl_align_scaled (m : positive) (e ez : Z) :
  ez ≤ e → -1074 ≤ ez →
  Z.pos (shl_align m e ez).1 * 2 ^ (ez + 1074) = Z.pos m * 2 ^ (e + 1074).
Proof.
  intros He Hz. unfold shl_align. destruct (ez - e) as [|p|p] eqn:E.
  - by replace ez with e by lia.
  - lia.
  - cbn [fst]. rewrite pos_iter_xO.
    replace (e + 1074) with (Z.pos p + (ez + 1074)) by lia.
    rewrite (Z.pow_add_r 2 (Z.pos p) (ez + 1074)) by lia. ring.
Qed.

Lemma SFleb_scaled (x y : spec_float) :
  valid_binary x = true → valid_binary y = true → SFleb x y = true →
  x ≠ S754_nan ∧ y ≠ S754_nan ∧ scaled x ≤ scaled y.
Proof.
  intros Hx Hy. unfold SFleb.
  destruct (nan_or_not x) as [->|Nx]; [done|].
  destruct (nan_or_not y) as [->|Ny]; [by destruct x|].
  rewrite (SFcompare_scaled _ _ Hx Hy Nx Ny), <- Z.compare_le_iff.
  destruct (scaled x ?= scaled y); by intros.
Qed.

(** The integer that two aligned mantissas differ by, as the subtraction
    and the addition normalise it. *)
Lemma aligned_scaled (sx sy : bool) (mx my : positive) (ex ey : Z) :
  -1074 ≤ ex → -1074 ≤ ey →
  let ez := Z.min ex ey in
  let ax := cond_Zopp sx (Z.pos (shl_align mx ex ez).1) in
  let ay := cond_Zopp sy (Z.pos (shl_align my ey ez).1) in
  ax * 2 ^ (ez + 1074) = scaled (S754_finite sx mx ex) ∧
  ay * 2 ^ (ez + 1074) = scaled (S754_finite sy my ey).
Proof.
  intros Hex Hey ez ax ay. subst ax ay.
  pose proof (shl_align_scaled mx ex ez ltac:(lia) ltac:(lia)) as Ex.
  pose proof (shl_align_scaled my ey ez ltac:(lia) ltac:(lia)) as Ey.
  cbn [scaled]. split; [destruct sx|destruct sy]; cbn [cond_Zopp]; lia.
Qed.

(** The difference of a float and a float that is not above it has no
    minus sign, unless it is a zero, an infinity or a NaN. *)
Lemma SFsub_not_negative (x y : spec_float) :
  valid_binary x = true → valid_binary y = true → SFleb y x = true →
  not_negative (SF64sub x y).
Proof.
  intros Hx Hy Hle.
  destruct (SFleb_scaled _ _ Hy Hx Hle) as (Ny & Nx & Hs).
  destruct x as [sx|sx| |sx mx ex], y as [sy|sy| |sy my ey]; try done.
  - by destruct sx, sy.
  - cbn [valid_binary] in Hy.
    pose proof (scaled_finite_bounds _ _ Hy) as [? ?].
    destruct sy; [done|]. cbn [scaled cond_Zopp] in Hs. lia.
  - by destruct sx, sy.
  - cbn [valid_binary] in Hx.
    pose proof (scaled_finite_bounds _ _ Hx) as [? ?].
    destruct sx; [|done]. cbn [scaled cond_Zopp] in Hs. lia.
  - unfold SF64sub, SFsub. apply binary_normalize_sign.
    cbn [valid_binary] in Hx, Hy.
    apply bounded_inv in Hx as (Hex & _), Hy as (Hey & _).
    destruct (aligned_scaled sx sy mx my ex ey) as [Ex Ey]; [lia..|].
    cbv zeta in Ex, Ey.
    assert (0 < 2 ^ (Z.min ex ey + 1074)) by (apply Z.pow_pos_nonneg; lia).
    nia.
Qed.

(** ** Binary64: values *)

Lemma float_scale_Z : Z.pos float_scale = 2 ^ 1074.
Proof. unfold float_scale. by rewrite Pos2Z.inj_pow. Qed.

Lemma truncate_F2Q (f : float) :
  truncate (F2Q f) = Z.quot (scaled (Prim2SF f)) (Z.pos float_scale).
Proof. reflexivity. Qed.

(** The outcome of [astype(int)] is a 64-bit integer. *)
Lemma astype_int_range (f : float) : INT64_MIN ≤ astype_int f < 2 ^ 63.
Proof.
  unfold astype_int. destruct (is_finite f); [|done].
  cbv zeta.
  destruct (Z.leb_spec INT64_MIN (truncate (F2Q f))),
    (Z.ltb_spec (truncate (F2Q f)) (2 ^ 63)); simpl; done.
Qed.

(** It is the truncated value of the float, or the least integer. *)
Lemma astype_int_cases (f : float) :
  astype_int f = INT64_MIN ∨
  (is_finite f = true ∧ astype_int f = truncate (F2Q f)).
Proof.
  unfold astype_int. destruct (is_finite f); [|by left]. cbv zeta.
  destruct (_ && _); [by right|by left].
Qed.

Lemma astype_int_not_negative (f : float) :
  not_negative (Prim2SF f) → 0 ≤ astype_int f ∨ astype_int f = INT64_MIN.
Proof.
  intros Hs. destruct (astype_int_cases f) as [?|[Hf ->]]; [by right|left].
  rewrite truncate_F2Q. apply Z.quot_pos; [|lia].
  rewrite is_finite_spec in Hf.
  destruct (Prim2SF f) as [s|s| |[] m e]; cbn [scaled cond_Zopp]; try done.
  apply Z.mul_nonneg_nonneg; [lia|]. apply Z.pow_nonneg. lia.
Qed.

(** Line 52: [bound_low - shift], truncated, is not negative when [shift]
    is not above [bound_low], unless the conversion overflows. *)
Lemma astype_int_sub (a b : float) :
  (b <=? a)%float = true →
  0 ≤ astype_int (a - b) ∨ astype_int (a - b) = INT64_MIN.
Proof.
  intros H. apply astype_int_not_negative. rewrite FloatAxioms.sub_spec.
  apply SFsub_not_negative; try apply Prim2SF_valid.
  by rewrite <- FloatAxioms.leb_spec.
Qed.

Lemma astype_int_nan (f : float) : is_nan f = true → astype_int f = INT64_MIN.
Proof.
  intros E. unfold astype_int.
  destruct (is_finite f) eqn:Ef; [|done].
  apply is_finite_not_nan in Ef. congruence.
Qed.

Lemma sub_nan_l (a b : float) : is_nan a = true → is_nan (a - b) = true.
Proof. rewrite !is_nan_spec, FloatAxioms.sub_spec. by intros ->. Qed.

(** The origin of a crop on one axis. *)
Lemma astype_int_sub_max (lo s : float) :
  is_nan lo = true ∨ (s <=? lo)%float = true →
  0 ≤ astype_int (lo - s) ∨ astype_int (lo - s) = INT64_MIN.
Proof.
  intros [Hn|Hle]; [right|by apply astype_int_sub].
  by apply astype_int_nan, sub_nan_l.
Qed.

(** Fractions over one denominator. *)
Lemma Qmake_eq_sub (K : positive) (a b c : Z) :
  (a # K == (b # K) - (c # K))%Q ↔ a = b - c.
Proof.
  unfold Qeq, Qminus, Qplus, Qopp. cbn [Qnum Qden].
  rewrite Pos2Z.inj_mul. split; [|intros ->; ring].
  intros H. apply (Z.mul_cancel_r _ _ (Z.pos K * Z.pos K)); [lia|].
  rewrite H. ring.
Qed.

Lemma Qmake_eq_add (K : positive) (a b c : Z) :
  (a # K == (b # K) + (c # K))%Q ↔ a = b + c.
Proof.
  unfold Qeq, Qplus. cbn [Qnum Qden].
  rewrite Pos2Z.inj_mul. split; [|intros ->; ring].
  intros H. apply (Z.mul_cancel_r _ _ (Z.pos K * Z.pos K)); [lia|].
  rewrite H. ring.
Qed.

Lemma Qmake_eq_Z (K : positive) (a z : Z) :
  (a # K == inject_Z z)%Q ↔ a = z * Z.pos K.
Proof. unfold Qeq, inject_Z. cbn [Qnum Qden]. lia. Qed.

Lemma exact_sub_scaled (a b : float) :
  exact_sub a b →
  scaled (Prim2SF (a - b)) = scaled (Prim2SF a) - scaled (Prim2SF b).
Proof. intros (_ & _ & _ & H). by apply Qmake_eq_sub in H. Qed.

Lemma exact_add_scaled (a b : float) :
  exact_add a b →
  scaled (Prim2SF (a + b)) = scaled (Prim2SF a) + scaled (Prim2SF b).
Proof. intros (_ & _ & _ & H). by apply Qmake_eq_add in H. Qed.

(** Between finite floats, [<=?] is the order of the values. *)
Lemma leb_finite (a b : float) :
  is_finite a = true → is_finite b = true →
  (a <=? b)%float = true ↔ scaled (Prim2SF a) ≤ scaled (Prim2SF b).
Proof.
  intros Ha%is_finite_not_nan Hb%is_finite_not_nan.
  rewrite leb_scaled. split; [by intros (_ & _ & ?)|done].
Qed.

(** ** Binary64: whole numbers, zero *)

Lemma digits2_pos_iter_xO (m p : positive) :
  digits2_pos (Pos.iter xO m p) = (digits2_pos m + p)%positive.
Proof.
  induction p as [|p IH] using Pos.peano_ind.
  - simpl. lia.
  - rewrite Pos.iter_succ. simpl. rewrite IH. lia.
Qed.

Lemma shl_align_digits (m : positive) (e ez : Z) :
  ez ≤ e →
  Z.pos (digits2_pos (shl_align m e ez).1) = Z.pos (digits2_pos m) + (e - ez) ∧
  (shl_align m e ez).2 = ez.
Proof.
  intros He. unfold shl_align. destruct (ez - e) as [|p|p] eqn:E.
  - cbn [fst snd]. lia.
  - lia.
  - cbn [fst snd]. rewrite digits2_pos_iter_xO. lia.
Qed.

(** A whole number below [2^53] is a binary64 number. *)
Lemma binary_normalize_whole (z : Z) :
  0 ≤ z < 2 ^ 53 →
  let r := binary_normalize prec emax z 0 false in
  SFfinite r = true ∧ not_negative r ∧ r ≠ S754_zero true ∧
  scaled r = z * 2 ^ 1074.
Proof.
  intros [Hz0 Hz]. destruct z as [|m|m]; [done| |lia]. cbv zeta.
  unfold binary_normalize, binary_round.
  pose proof (digits2_pos_bounds m) as [Hlo _].
  set (d := Z.pos (digits2_pos m)) in *.
  assert (d ≤ 53) as Hd.
  { destruct (Z.le_gt_cases d 53) as [|Hgt]; [done|].
    assert (2 ^ 53 ≤ 2 ^ (d - 1)) by (apply Z.pow_le_mono_r; lia). lia. }
  assert (0 < d) by (unfold d; lia).
  assert (fexp prec emax (d + 0) = d - 53) as ->
    by (unfold fexp, SpecFloat.emin, prec, emax; lia).
  destruct (shl_align_digits m 0 (d - 53)) as [Hdig Hez]; [lia|].
  pose proof (shl_align_scaled m 0 (d - 53) ltac:(lia) ltac:(lia)) as Hval.
  destruct (shl_align m 0 (d - 53)) as [mz ez]. cbn [fst snd] in *. subst ez.
  fold d in Hdig.
  unfold binary_round_aux, shr_fexp. cbn [Zdigits2 shr_record_of_loc].
  assert (fexp prec emax (Z.pos (digits2_pos mz) + (d - 53)) - (d - 53) = 0) as ->
    by (unfold fexp, SpecFloat.emin, prec, emax; lia).
  cbn [shr shr_m loc_of_shr_record round_nearest_even Zdigits2 shr_record_of_loc].
  assert (fexp prec emax (Z.pos (digits2_pos mz) + (d - 53)) - (d - 53) = 0) as ->
    by (unfold fexp, SpecFloat.emin, prec, emax; lia).
  cbn [shr shr_m].
  destruct (Z.leb_spec (d - 53) (emax - prec)) as [_|Hbig];
    [|unfold emax, prec in Hbig; lia].
  split; [done|]. split; [done|]. split; [done|]. cbn [scaled cond_Zopp].
  rewrite Hval. done.
Qed.

Lemma float_of_nat_exact (n : nat) :
  Z.of_nat n < 2 ^ 53 →
  is_finite (float_of_nat n) = true ∧
  not_negative (Prim2SF (float_of_nat n)) ∧
  Prim2SF (float_of_nat n) ≠ S754_zero true ∧
  scaled (Prim2SF (float_of_nat n)) = Z.of_nat n * 2 ^ 1074.
Proof.
  intros Hn. unfold float_of_nat.
  rewrite is_finite_spec, of_uint63_spec, Uint63.of_Z_spec.
  rewrite Z.mod_small.
  - apply binary_normalize_whole. lia.
  - split; [lia|]. eapply Z.lt_trans; [exact Hn|]. done.
Qed.

(** A finite float minus itself is [+0]. *)
Lemma sub_diag (x : float) : is_finite x = true → (x - x)%float = 0%float.
Proof.
  rewrite is_finite_spec. intros Hx. apply Prim2SF_inj.
  rewrite FloatAxioms.sub_spec.
  change (Prim2SF 0) with (S754_zero false).
  destruct (Prim2SF x) as [[]|s| |s m e]; try done.
  unfold SF64sub, SFsub. by rewrite Z.sub_diag.
Qed.

(** Adding [+0] to a float that is not negative, or taking [+0] from it,
    changes nothing. *)
Lemma add_zero_r (x : float) :
  is_finite x = true → not_negative (Prim2SF x) →
  Prim2SF x ≠ S754_zero true → (x + 0)%float = x.
Proof.
  rewrite is_finite_spec. intros Hx Hs Hz. apply Prim2SF_inj.
  rewrite FloatAxioms.add_spec. change (Prim2SF 0) with (S754_zero false).
  by destruct (Prim2SF x) as [[]|s| |s m e].
Qed.

Lemma sub_zero_r (x : float) :
  is_finite x = true → Prim2SF x ≠ S754_zero true → (x - 0)%float = x.
Proof.
  rewrite is_finite_spec. intros Hx Hz. apply Prim2SF_inj.
  rewrite FloatAxioms.sub_spec. change (Prim2SF 0) with (S754_zero false).
  by destruct (Prim2SF x) as [[]|s| |s m e].
Qed.

(** ** 64-bit integers *)

Lemma wrap_int64_small (z : Z) : INT64_MIN ≤ z < 2 ^ 63 → wrap_int64 z = z.
Proof.
  unfold INT64_MIN, wrap_int64. intros Hz.
  rewrite Z.mod_small; lia.
Qed.

Lemma wrap_int64_range (z : Z) : INT64_MIN ≤ wrap_int64 z < 2 ^ 63.
Proof.
  unfold INT64_MIN, wrap_int64.
  pose proof (Z.mod_pos_bound (z + 2 ^ 63) (2 ^ 64) ltac:(done)). lia.
Qed.

(** The sum of two 64-bit integers that are not negative wraps to a
    negative number or is their sum. *)
Lemma int64_add_nonneg (a b : Z) :
  0 ≤ a < 2 ^ 63 → 0 ≤ b < 2 ^ 63 →
  int64_add a b < 0 ∨ int64_add a b = a + b.
Proof.
  intros Ha Hb. unfold int64_add.
  destruct (Z.lt_ge_cases (a + b) (2 ^ 63)) as [Hs|Hs].
  - right. apply wrap_int64_small. unfold INT64_MIN. lia.
  - left. unfold wrap_int64.
    replace (a + b + 2 ^ 63) with ((a + b - 2 ^ 63) + 1 * 2 ^ 64) by lia.
    rewrite Z.mod_add, Z.mod_small by lia. lia.
Qed.

(** ** Slices *)

Lemma slice_index_le (i : Z) (n : nat) : (slice_index i n ≤ n)%nat.
Proof. unfold slice_index. destruct (Z.ltb_spec i 0); lia. Qed.

Lemma slice_index_in (i : Z) (n : nat) :
  0 ≤ i ≤ Z.of_nat n → slice_index i n = Z.to_nat i.
Proof. intros Hi. unfold slice_index. destruct (Z.ltb_spec i 0); lia. Qed.

Lemma slice_len_le (lo hi : Z) (n : nat) : (slice_len lo hi n ≤ n)%nat.
Proof. unfold slice_len. pose proof (slice_index_le hi n). lia. Qed.

(** A rectangle side that fits: the slice has the requested length. *)
Lemma slice_len_in (lo sz : Z) (n : nat) :
  0 ≤ lo → 0 ≤ sz → lo + sz ≤ Z.of_nat n →
  slice_len lo (lo + sz) n = Z.to_nat sz.
Proof.
  intros Hlo Hsz Hhi. unfold slice_len.
  rewrite !slice_index_in by lia. lia.
Qed.

(** An end that is not after a non-negative start selects nothing, unless
    the end is negative: then it is counted from the far edge. *)
Lemma slice_len_backwards (lo hi : Z) (n : nat) :
  0 ≤ lo → hi ≤ lo →
  slice_len lo hi n = 0%nat ∨
  (hi < 0 ∧ slice_len lo hi n = (Z.to_nat (hi + Z.of_nat n) - Z.to_nat lo)%nat).
Proof.
  intros Hlo Hhi. unfold slice_len, slice_index.
  destruct (Z.ltb_spec lo 0); [lia |].
  destruct (Z.ltb_spec hi 0); [| left; lia].
  destruct (decide (hi + Z.of_nat n ≤ lo)); [left; lia | right].
  split; [done | lia].
Qed.

Lemma py_slice_length {A} (lo hi : Z) (l : list A) :
  length (py_slice lo hi l) = slice_len lo hi (length l).
Proof.
  unfold py_slice. rewrite length_take, length_drop.
  unfold slice_len. pose proof (slice_index_le hi (length l)). lia.
Qed.

Lemma py_slice_lookup {A} (lo sz : Z) (l : list A) (k : nat) :
  0 ≤ lo → lo + sz ≤ Z.of_nat (length l) → (k < Z.to_nat sz)%nat →
  py_slice lo (lo + sz) l !! k = l !! (Z.to_nat lo + k)%nat.
Proof.
  intros Hlo Hhi Hk. unfold py_slice.
  rewrite slice_len_in, slice_index_in by lia.
  rewrite lookup_take, lookup_drop. by case_decide.
Qed.

Lemma py_slice_all {A} (l : list A) (n : nat) :
  length l = n → py_slice 0 (Z.of_nat n) l = l.
Proof.
  intros <-. unfold py_slice.
  rewrite (slice_len_in 0 (Z.of_nat (length l))) by lia.
  rewrite slice_index_in by lia. simpl. rewrite drop_0.
  apply take_ge. lia.
Qed.

(** Python's answers on a list of four: [l[0:-2]], [l[6:4]], [l[-3:-1]],
    [l[1:9]] and [l[-9:2]]. *)
Example py_slice_samples :
  py_slice 0 (-2) [1; 2; 3; 4] = [1; 2] ∧
  py_slice 6 4 [1; 2; 3; 4] = [] ∧
  py_slice (-3) (-1) [1; 2; 3; 4] = [2; 3] ∧
  py_slice 1 9 [1; 2; 3; 4] = [2; 3; 4] ∧
  py_slice (-9) 2 [1; 2; 3; 4] = [1; 2].
Proof. repeat split. Qed.

(** ** Slices of images *)

Section Getitem.
Context {pixel : Type}.
Implicit Types (img : ndarray pixel).

Lemma getitem_well_formed img (y_lo y_hi x_lo x_hi : Z) :
  well_formed img → well_formed (getitem img y_lo y_hi x_lo x_hi).
Proof.
  intros [Hrows Hcols]. split; simpl.
  - by rewrite length_fmap, py_slice_length, Hrows.
  - apply Forall_fmap.
    assert (Forall (λ row, length row = width img)
              (py_slice y_lo y_hi (pixels img))) as Hsel
      by (by apply Forall_take, Forall_drop).
    eapply Forall_impl; [exact Hsel |]. intros row Hrow.
    unfold compose. simpl. by rewrite py_slice_length, Hrow.
Qed.

(** The whole-image slice [img[0:height, 0:width]] is the image. *)
Lemma getitem_all img :
  well_formed img →
  getitem img 0 (Z.of_nat (height img)) 0 (Z.of_nat (width img)) = img.
Proof.
  intros [Hrows Hcols]. destruct img as [h w c rows]; simpl in *.
  unfold getitem; simpl.
  rewrite (slice_len_in 0 (Z.of_nat h)), (slice_len_in 0 (Z.of_nat w)) by lia.
  rewrite !Nat2Z.id, py_slice_all by done. f_equal.
  clear Hrows.
  induction Hcols as [| row rows' Hrow _ IH]; simpl; [done |].
  rewrite py_slice_all by done. by f_equal.
Qed.

(** Pixel [(r, c)] of a slice that fits is pixel
    [(y_lo + r, x_lo + c)] of the source. *)
Lemma getitem_pixel img (y_lo x_lo h w : Z) (r c : nat) :
  well_formed img →
  0 ≤ y_lo → y_lo + h ≤ Z.of_nat (height img) →
  0 ≤ x_lo → x_lo + w ≤ Z.of_nat (width img) →
  (r < Z.to_nat h)%nat → (c < Z.to_nat w)%nat →
  pixels (getitem img y_lo (y_lo + h) x_lo (x_lo + w)) !! r ≫= (.!! c) =
  pixels img !! (Z.to_nat y_lo + r)%nat ≫= (.!! (Z.to_nat x_lo + c)%nat).
Proof.
  intros [Hrows Hcols] Hy Hyh Hx Hxw Hr Hc. simpl.
  rewrite list_lookup_fmap, py_slice_lookup by (rewrite ?Hrows; lia).
  destruct (pixels img !! (Z.to_nat y_lo + r)%nat) as [row |] eqn:Hrow;
    simpl; [| done].
  apply py_slice_lookup; [lia | | lia].
  rewrite Forall_lookup in Hcols. by rewrite (Hcols _ _ Hrow).
Qed.
End Getitem.

(** ** The crop arithmetic of [align_eyes] *)

Section AlignFacts.
Context {pixel : Type}.
Implicit Types (img : ndarray pixel) (imgs : list (ndarray pixel)).
Implicit Types (mid_eyes : list point) (lo mn shift : point).

Lemma shifts_length mid_eyes : length (shifts mid_eyes) = length mid_eyes.
Proof. apply length_fmap. Qed.

Lemma shifts_lookup mid_eyes (i : nat) :
  shifts mid_eyes !! i = psub (dist_mid_eye mid_eyes) <$> mid_eyes !! i.
Proof. apply list_lookup_fmap. Qed.

Lemma bound_low_is_Some mid_eyes :
  mid_eyes ≠ [] → is_Some (bound_low mid_eyes).
Proof. destruct mid_eyes; [done | by eexists]. Qed.

(** The size is the truncation of [imshape + min - max]. *)
Lemma bound_low_to_high_Some img mid_eyes (size : Z * Z) :
  bound_low_to_high img mid_eyes = Some size ↔
  ∃ lo mn, bound_low mid_eyes = Some lo ∧
           min_axis0 (shifts mid_eyes) = Some mn ∧
           size = pastype_int (psub (padd (imshape img) mn) lo).
Proof.
  unfold bound_low_to_high. split.
  - destruct (bound_low mid_eyes) as [lo |]; simpl; [| done].
    destruct (min_axis0 (shifts mid_eyes)) as [mn |]; simpl; [| done].
    intros [= <-]. by exists lo, mn.
  - intros (lo & mn & Hlo & Hmn & Hsize). by rewrite Hlo, Hmn, Hsize.
Qed.

Lemma bound_low_to_high_is_Some img mid_eyes :
  mid_eyes ≠ [] → is_Some (bound_low_to_high img mid_eyes).
Proof. destruct mid_eyes; [done | by eexists]. Qed.

(** The size is a pair of 64-bit integers. *)
Lemma bound_low_to_high_range img mid_eyes (size : Z * Z) :
  bound_low_to_high img mid_eyes = Some size →
  INT64_MIN ≤ size.1 < 2 ^ 63 ∧ INT64_MIN ≤ size.2 < 2 ^ 63.
Proof.
  intros (lo & mn & _ & _ & ->)%bound_low_to_high_Some.
  split; apply astype_int_range.
Qed.

(** What [align_eyes] returns when it does not raise. *)
Lemma align_eyes_inr imgs mid_eyes (crops : list (ndarray pixel)) :
  align_eyes imgs mid_eyes = inr crops ↔
  ∃ img0 lo size,
    head imgs = Some img0 ∧ bound_low mid_eyes = Some lo ∧
    bound_low_to_high img0 mid_eyes = Some size ∧
    crops = zip_with (crop_img lo size) imgs (shifts mid_eyes).
Proof.
  unfold align_eyes. split.
  - destruct imgs as [| img0 imgs']; [done |].
    destruct (bound_low mid_eyes) as [lo |] eqn:Hlo; [| done].
    destruct (bound_low_to_high img0 mid_eyes) as [size |] eqn:Hsz; [| done].
    intros [= <-]. by exists img0, lo, size.
  - intros (img0 & lo & size & Hhd & -> & Hsz & ->).
    destruct imgs as [| img0' imgs']; [done |].
    injection Hhd as ->. by rewrite Hsz.
Qed.

(** The origin of every crop is not negative, unless its conversion to an
    integer overflows. *)
Lemma crop_low_sign mid_eyes lo shift :
  bound_low mid_eyes = Some lo → shift ∈ shifts mid_eyes →
  (0 ≤ (crop_low lo shift).1 ∨ (crop_low lo shift).1 = INT64_MIN) ∧
  (0 ≤ (crop_low lo shift).2 ∨ (crop_low lo shift).2 = INT64_MIN).
Proof.
  intros Hlo Hin. destruct (max_axis0_ge _ _ _ Hlo Hin) as [Hx Hy].
  unfold crop_low, pastype_int, psub. cbn [fst snd].
  split; by apply astype_int_sub_max.
Qed.

Lemma crop_low_range lo shift :
  INT64_MIN ≤ (crop_low lo shift).1 < 2 ^ 63 ∧
  INT64_MIN ≤ (crop_low lo shift).2 < 2 ^ 63.
Proof. split; apply astype_int_range. Qed.

Lemma crop_img_getitem lo (size : Z * Z) img shift :
  crop_img lo size img shift =
  getitem img (crop_low lo shift).2 (int64_add (crop_low lo shift).2 size.2)
              (crop_low lo shift).1 (int64_add (crop_low lo shift).1 size.1).
Proof. unfold crop_img. by destruct (crop_low lo shift). Qed.

Lemma crop_fits_shape lo (size : Z * Z) img img0 shift :
  shape img = shape img0 →
  crop_fits lo size img0 shift → crop_fits lo size img shift.
Proof. unfold shape, crop_fits. intros [= -> -> _]. done. Qed.

Lemma int64_add_fits (a b : Z) :
  INT64_MIN ≤ b < 2 ^ 63 → a < 2 ^ 63 → 0 ≤ a ≤ int64_add a b →
  int64_add a b = a + b ∧ 0 ≤ b.
Proof.
  unfold INT64_MIN. intros Hb Ha Hle.
  destruct (Z.lt_ge_cases (a + b) (2 ^ 63)) as [Hs|Hs].
  - unfold int64_add in *. rewrite wrap_int64_small in *; unfold INT64_MIN; lia.
  - destruct (int64_add_nonneg a b) as [Hneg|Heq]; [lia..| |].
    + lia.
    + rewrite Heq in Hle.
      pose proof (wrap_int64_range (a + b)) as Hr. unfold int64_add in Heq.
      rewrite Heq in Hr. lia.
Qed.

(** A rectangle that fits has the requested size, which is not negative,
    and its far bounds did not wrap around. *)
Lemma crop_fits_rect lo (size : Z * Z) img shift :
  INT64_MIN ≤ size.1 < 2 ^ 63 → INT64_MIN ≤ size.2 < 2 ^ 63 →
  crop_fits lo size img shift →
  let origin := crop_low lo shift in
  rect_in_bounds origin size img ∧ 0 ≤ size.1 ∧ 0 ≤ size.2 ∧
  int64_add origin.1 size.1 = origin.1 + size.1 ∧
  int64_add origin.2 size.2 = origin.2 + size.2.
Proof.
  intros Hs1 Hs2 Hfit origin. unfold crop_fits in Hfit. fold origin in Hfit.
  destruct (crop_low_range lo shift) as [Hr1 Hr2]. fold origin in Hr1, Hr2.
  destruct origin as [x y]. cbn [fst snd] in *.
  destruct Hfit as (Hx & Hxw & Hy & Hyh).
  destruct (int64_add_fits x size.1) as [Ex ?]; [lia..|].
  destruct (int64_add_fits y size.2) as [Ey ?]; [lia..|].
  unfold rect_in_bounds. cbn [fst snd]. rewrite Ex, Ey in *. lia.
Qed.
End AlignFacts.

(** ** Offsets and far edges, axis by axis *)

Lemma Qmake_offset (K : positive) (m o : Z) :
  ((m # K) - inject_Z o == (m - Z.pos K * o) # K)%Q.
Proof.
  unfold Qeq, Qminus, Qplus, Qopp, inject_Z. cbn [Qnum Qden].
  rewrite Pos2Z.inj_mul. ring.
Qed.

Lemma Qmake_sub (K : positive) (a b : Z) :
  ((a # K) - (b # K) == (a - b) # K)%Q.
Proof. symmetry. by apply Qmake_eq_sub. Qed.

Lemma Qmake_between (K : positive) (x : Z) :
  (-1 < x # K < 1)%Q ↔ - Z.pos K < x < Z.pos K.
Proof. unfold Qlt. cbn [Qnum Qden]. lia. Qed.

Lemma Qmake_eq (K : positive) (a b : Z) : (a # K == b # K)%Q ↔ a = b.
Proof.
  unfold Qeq. cbn [Qnum Qden]. split; [|by intros ->].
  intros H. apply (Z.mul_cancel_r _ _ (Z.pos K)); [lia|done].
Qed.

(** Truncating [m + T] and [m' + T], both not negative, leaves two
    remainders less than one unit apart. *)
Lemma offsets_close (K T m m' : Z) :
  0 < K → 0 ≤ m + T → 0 ≤ m' + T →
  let o := m - K * ((m + T) ÷ K) in
  let o' := m' - K * ((m' + T) ÷ K) in
  - K < o - o' < K ∧ (∀ d, m - m' = d * K → o = o').
Proof.
  intros HK Ha Ha' o o'. subst o o'.
  rewrite !Z.quot_div_nonneg by lia.
  pose proof (Z.div_mod (m + T) K ltac:(lia)) as E.
  pose proof (Z.div_mod (m' + T) K ltac:(lia)) as E'.
  pose proof (Z.mod_pos_bound (m + T) K HK) as B.
  pose proof (Z.mod_pos_bound (m' + T) K HK) as B'.
  split; [lia|]. intros d Hd.
  assert ((m + T) mod K = (m' + T) mod K) as Hmod.
  { replace (m + T) with (m' + T + d * K) by lia. apply Z.mod_add. lia. }
  lia.
Qed.

(** The truncations of [A] (not negative) and of [B] add up to at most
    [W] when [A + B] is at most [W] units. *)
Lemma quot_sum_le (K A B W : Z) :
  0 < K → 0 ≤ A → A + B ≤ W * K → A ÷ K + B ÷ K ≤ W.
Proof.
  intros HK HA Hsum.
  pose proof (Z.quot_rem' A K) as EA. pose proof (Z.quot_rem' B K) as EB.
  pose proof (Z.rem_bound_pos A K HA HK) as RA.
  assert (- K < Z.rem B K < K) as RB.
  { destruct (Z.le_ge_cases 0 B) as [HB|HB].
    - pose proof (Z.rem_bound_pos B K HB HK). lia.
    - pose proof (Z.rem_bound_pos_neg B K HK HB). lia. }
  nia.
Qed.

(** The origin of a crop, when the subtraction rounds nothing and the
    conversion does not overflow. *)
Lemma origin_exact (lo s : float) :
  exact_sub lo s → 0 ≤ astype_int (lo - s) →
  astype_int (lo - s)
  = Z.quot (scaled (Prim2SF lo) - scaled (Prim2SF s)) (Z.pos float_scale).
Proof.
  intros Hex Hpos.
  destruct (astype_int_cases (lo - s)) as [E|[_ E]].
  - rewrite E in Hpos. done.
  - by rewrite E, truncate_F2Q, exact_sub_scaled.
Qed.

Lemma below_max_scaled (lo s : float) :
  is_finite lo = true → is_finite s = true →
  is_nan lo = true ∨ (s <=? lo)%float = true →
  scaled (Prim2SF s) ≤ scaled (Prim2SF lo).
Proof.
  intros Hlo Hs [Hn|Hle].
  - apply is_finite_not_nan in Hlo. congruence.
  - by apply leb_finite.
Qed.

Lemma above_min_scaled (mn s : float) :
  is_finite mn = true → is_finite s = true →
  is_nan mn = true ∨ (mn <=? s)%float = true →
  scaled (Prim2SF mn) ≤ scaled (Prim2SF s).
Proof.
  intros Hmn Hs [Hn|Hle].
  - apply is_finite_not_nan in Hmn. congruence.
  - by apply leb_finite.
Qed.

(** Lines 45 and 52 on one axis, for two images whose subtractions round
    nothing: the eye midpoints land less than a pixel apart, and at the
    same place when they are a whole number of pixels apart. *)
Lemma axis_aligned (c lo m m' : float) :
  let s := (c - m)%float in
  let s' := (c - m')%float in
  exact_sub c m → exact_sub lo s → exact_sub c m' → exact_sub lo s' →
  is_nan lo = true ∨ (s <=? lo)%float = true →
  is_nan lo = true ∨ (s' <=? lo)%float = true →
  0 ≤ astype_int (lo - s) → 0 ≤ astype_int (lo - s') →
  let o := (F2Q m - inject_Z (astype_int (lo - s)))%Q in
  let o' := (F2Q m' - inject_Z (astype_int (lo - s')))%Q in
  (-1 < o - o' < 1)%Q ∧
  (∀ d : Z, (F2Q m - F2Q m' == inject_Z d)%Q → (o == o')%Q).
Proof.
  intros s s' Hcm Hls Hcm' Hls' Hle Hle' Hpos Hpos' o o'. subst o o'.
  rewrite (origin_exact lo s Hls Hpos), (origin_exact lo s' Hls' Hpos').
  pose proof (below_max_scaled lo s) as Hs.
  pose proof (below_max_scaled lo s') as Hs'.
  destruct Hls as (Hflo & Hfs & _ & _), Hls' as (_ & Hfs' & _ & _).
  specialize (Hs Hflo Hfs Hle). specialize (Hs' Hflo Hfs' Hle').
  unfold s, s' in Hs, Hs' |- *.
  rewrite !(exact_sub_scaled c _) in * by done.
  unfold F2Q.
  set (K := float_scale).
  set (zm := scaled (Prim2SF m)) in *. set (zm' := scaled (Prim2SF m')) in *.
  set (zc := scaled (Prim2SF c)) in *. set (zlo := scaled (Prim2SF lo)) in *.
  clearbody zm zm' zc zlo K.
  destruct (offsets_close (Z.pos K) (zlo - zc) zm zm') as [Hclose Hsame];
    [lia..|].
  replace (zlo - (zc - zm)) with (zm + (zlo - zc)) by lia.
  replace (zlo - (zc - zm')) with (zm' + (zlo - zc)) by lia.
  split.
  - rewrite !Qmake_offset, !Qmake_sub. apply Qmake_between. lia.
  - intros d Hd. rewrite !Qmake_offset. apply Qmake_eq.
    rewrite Qmake_sub in Hd. apply (proj1 (Qmake_eq_Z _ _ _)) in Hd.
    by apply (Hsame d).
Qed.

(** Lines 47 and 52 on one axis: when the three operations round nothing,
    the far edge of the crop is within the image. *)
Lemma axis_far_edge (W : nat) (lo mn s : float) :
  Z.of_nat W < 2 ^ 53 →
  exact_sub lo s → exact_add (float_of_nat W) mn →
  exact_sub (float_of_nat W + mn) lo →
  is_nan lo = true ∨ (s <=? lo)%float = true →
  is_nan mn = true ∨ (mn <=? s)%float = true →
  astype_int (lo - s) + astype_int (float_of_nat W + mn - lo) ≤ Z.of_nat W.
Proof.
  intros HW Hls Hwm Hsz Hle Hge.
  pose proof (astype_int_range (lo - s)) as Ro.
  pose proof (astype_int_range (float_of_nat W + mn - lo)) as Rz.
  unfold INT64_MIN in *.
  destruct (astype_int_cases (lo - s)) as [Eo|[_ Eo]];
    [unfold INT64_MIN in Eo; lia|].
  destruct (astype_int_cases (float_of_nat W + mn - lo)) as [Ez|[_ Ez]].
  { unfold INT64_MIN in Ez. rewrite Ez. lia. }
  rewrite Eo, Ez, !truncate_F2Q.
  rewrite (exact_sub_scaled _ _ Hls), (exact_sub_scaled _ _ Hsz),
    (exact_add_scaled _ _ Hwm).
  destruct (float_of_nat_exact W HW) as (_ & _ & _ & ->).
  destruct Hls as (Hflo & Hfs & _ & _), Hwm as (_ & Hfmn & _ & _).
  pose proof (below_max_scaled lo s Hflo Hfs Hle).
  pose proof (above_min_scaled mn s Hfmn Hfs Hge).
  rewrite <- float_scale_Z.
  apply quot_sum_le; lia.
Qed.

(** ** [align_eyes] on rectangles that fit *)

(** C1, as amended.  For every batch of same-shaped images with one eye
    midpoint each whose crop rectangles, as lines 47 to 54 compute them in
    binary64 and 64-bit integers, lie inside the images, [align_eyes]
    returns one crop per image, each the slice of its image at the image's
    own origin and of the one shared size; no crop rectangle leaves its
    image; pixel [(r, c)] of a crop is pixel [origin + (r, c)] of its source;
    and the eye midpoints of any two images for which the subtractions of
    lines 45 and 52 round nothing sit less than one pixel apart in their
    crops, at the same place when the midpoints are whole pixels apart. *)
Theorem align_eyes_aligned {pixel} (imgs : list (ndarray pixel))
    (mid_eyes : list point) (img0 : ndarray pixel) (lo : point)
    (size : Z * Z) :
  head imgs = Some img0 →
  length mid_eyes = length imgs →
  Forall (λ img, shape img = shape img0) imgs →
  bound_low mid_eyes = Some lo →
  bound_low_to_high img0 mid_eyes = Some size →
  let shift mid := psub (dist_mid_eye mid_eyes) mid in
  let origin mid := crop_low lo (shift mid) in
  Forall (λ mid, crop_fits lo size img0 (shift mid)) mid_eyes →
  ∃ crops,
    align_eyes imgs mid_eyes = inr crops ∧
    length crops = length imgs ∧
    (∀ (i : nat) img mid,
       imgs !! i = Some img → mid_eyes !! i = Some mid →
       ∃ crop,
         crops !! i = Some crop ∧
         crop = getitem img (origin mid).2 ((origin mid).2 + size.2)
                            (origin mid).1 ((origin mid).1 + size.1) ∧
         width crop = Z.to_nat size.1 ∧ height crop = Z.to_nat size.2 ∧
         channels crop = channels img ∧
         rect_in_bounds (origin mid) size img ∧
         (well_formed img →
          well_formed crop ∧
          ∀ r c : nat, (r < Z.to_nat size.2)%nat → (c < Z.to_nat size.1)%nat →
            pixels crop !! r ≫= (.!! c) =
            pixels img !! (Z.to_nat (origin mid).2 + r)%nat
              ≫= (.!! (Z.to_nat (origin mid).1 + c)%nat))) ∧
    (∀ mid mid', mid ∈ mid_eyes → mid' ∈ mid_eyes →
       exact_psub (dist_mid_eye mid_eyes) mid → exact_psub lo (shift mid) →
       exact_psub (dist_mid_eye mid_eyes) mid' → exact_psub lo (shift mid') →
       let o := eye_offset mid (origin mid) in
       let o' := eye_offset mid' (origin mid') in
       (-1 < o.1 - o'.1 < 1)%Q ∧ (-1 < o.2 - o'.2 < 1)%Q ∧
       (whole_pixels_apart mid mid' → peq o o')).
Proof.
  intros Hhd Hlen Hshape Hlo Hsize shift origin Hfits.
  destruct (bound_low_to_high_range _ _ _ Hsize) as [Hr1 Hr2].
  rewrite Forall_forall in Hfits.
  exists (zip_with (crop_img lo size) imgs (shifts mid_eyes)).
  split; [apply align_eyes_inr; by exists img0, lo, size |].
  split; [rewrite length_zip_with, shifts_length; lia |].
  split.
  - intros i img mid Himg Hmid.
    assert (crop_fits lo size img (shift mid)) as Hfit.
    { rewrite Forall_lookup in Hshape.
      eapply (crop_fits_shape _ _ img img0); [by eapply Hshape |].
      apply Hfits. by eapply list_elem_of_lookup_2. }
    destruct (crop_fits_rect _ _ _ _ Hr1 Hr2 Hfit)
      as (Hrect & Hw & Hh & Ex & Ey).
    eexists. split.
    { rewrite lookup_zip_with, Himg, shifts_lookup, Hmid. simpl. reflexivity. }
    rewrite crop_img_getitem. fold (shift mid) (origin mid).
    fold (origin mid) in Hrect, Ex, Ey. rewrite Ex, Ey.
    generalize dependent (origin mid). intros o Hrect _ _.
    pose proof Hrect as (Hx & Hy & Hxw & Hyh).
    split; [done |]. unfold getitem at 1 2 3. cbn [width height channels].
    rewrite !slice_len_in by lia.
    do 4 (split; [done |]). intros Hwf. split.
    + by apply getitem_well_formed.
    + intros r c Hr Hc. by apply getitem_pixel.
  - intros mid mid' Hmid Hmid' [Ecx Ecy] [Elx Ely] [Ecx' Ecy'] [Elx' Ely'] o o'.
    assert (shift mid ∈ shifts mid_eyes) as Hin
      by (by apply list_elem_of_fmap_2).
    assert (shift mid' ∈ shifts mid_eyes) as Hin'
      by (by apply list_elem_of_fmap_2).
    destruct (max_axis0_ge _ _ _ Hlo Hin) as [Hmx Hmy].
    destruct (max_axis0_ge _ _ _ Hlo Hin') as [Hmx' Hmy'].
    pose proof (Hfits _ Hmid) as Hfit. pose proof (Hfits _ Hmid') as Hfit'.
    destruct (crop_fits_rect _ _ _ _ Hr1 Hr2 Hfit) as ((Hx & Hy & _) & _).
    destruct (crop_fits_rect _ _ _ _ Hr1 Hr2 Hfit') as ((Hx' & Hy' & _) & _).
    destruct (axis_aligned (dist_mid_eye mid_eyes).1 lo.1 mid.1 mid'.1)
      as [Hcx Hsx]; try done.
    destruct (axis_aligned (dist_mid_eye mid_eyes).2 lo.2 mid.2 mid'.2)
      as [Hcy Hsy]; try done.
    split; [exact Hcx |]. split; [exact Hcy |].
    intros (dx & dy & Hdx & Hdy). split; [by apply (Hsx dx) | by apply (Hsy dy)].
Qed.

(** C2, as amended.  For every batch that [align_eyes] accepts (images of one
    shape), the origin [(bound_low - shift).astype(int)] of the crop rectangle
    of every image is not negative on either axis, unless its conversion to a
    64-bit integer overflows and gives the least integer; and with the shared
    size [(imshape + min shift - bound_low).astype(int)] the rectangle ends
    within the width and the height of the image whenever the addition and
    the two subtractions behind it round nothing (the dimension being below
    [2^53]). *)
Theorem crop_rectangle_invariant {pixel} (imgs : list (ndarray pixel))
    (mid_eyes : list point) (img0 : ndarray pixel)
    (crops : list (ndarray pixel)) :
  head imgs = Some img0 →
  Forall (λ img, shape img = shape img0) imgs →
  align_eyes imgs mid_eyes = inr crops →
  ∃ lo mn size,
    bound_low mid_eyes = Some lo ∧
    min_axis0 (shifts mid_eyes) = Some mn ∧
    bound_low_to_high img0 mid_eyes = Some size ∧
    crops = zip_with (crop_img lo size) imgs (shifts mid_eyes) ∧
    ∀ (i : nat) img shift,
      imgs !! i = Some img → shifts mid_eyes !! i = Some shift →
      let origin := crop_low lo shift in
      let w := float_of_nat (width img) in
      let h := float_of_nat (height img) in
      (0 ≤ origin.1 ∨ origin.1 = INT64_MIN) ∧
      (0 ≤ origin.2 ∨ origin.2 = INT64_MIN) ∧
      (Z.of_nat (width img) < 2 ^ 53 →
       exact_sub lo.1 shift.1 → exact_add w mn.1 → exact_sub (w + mn.1) lo.1 →
       origin.1 + size.1 ≤ Z.of_nat (width img)) ∧
      (Z.of_nat (height img) < 2 ^ 53 →
       exact_sub lo.2 shift.2 → exact_add h mn.2 → exact_sub (h + mn.2) lo.2 →
       origin.2 + size.2 ≤ Z.of_nat (height img)).
Proof.
  intros Hhd Hshape Hrun.
  apply align_eyes_inr in Hrun as (img0' & lo & size & Hhd' & Hlo & Hsize & ->).
  assert (img0' = img0) as -> by congruence.
  pose proof Hsize as (lo' & mn & Hlo' & Hmn & Hval)%bound_low_to_high_Some.
  assert (lo' = lo) as -> by congruence.
  exists lo, mn, size. do 4 (split; [done |]).
  intros i img shift Himg Hshift origin w h.
  assert (shift ∈ shifts mid_eyes) as Hin by (by eapply list_elem_of_lookup_2).
  destruct (crop_low_sign _ _ _ Hlo Hin) as [Hx Hy].
  destruct (max_axis0_ge _ _ _ Hlo Hin) as [Hmx Hmy].
  destruct (min_axis0_le _ _ _ Hmn Hin) as [Hnx Hny].
  rewrite Forall_lookup in Hshape. specialize (Hshape _ _ Himg).
  injection Hshape as Hh Hw _.
  split; [exact Hx |]. split; [exact Hy |].
  subst origin w h. rewrite Hval.
  unfold crop_low, pastype_int, psub, padd, imshape. cbn [fst snd].
  rewrite <- Hh, <- Hw.
  split; intros; by apply axis_far_edge.
Qed.

(** ** Degenerate sizes *)

(** C9.  When the computed crop size is zero or negative on an axis,
    [align_eyes] raises nothing: it returns, for every image, the slice at
    the computed bounds, unclamped.  On that axis the slice is empty, or its
    end is negative and is counted from the far edge of the image, or its
    origin is the least 64-bit integer (the conversion of the origin
    overflowed). *)
Theorem align_eyes_degenerate {pixel} (imgs : list (ndarray pixel))
    (mid_eyes : list point) (img0 : ndarray pixel) (lo : point)
    (size : Z * Z) :
  head imgs = Some img0 →
  bound_low mid_eyes = Some lo →
  bound_low_to_high img0 mid_eyes = Some size →
  size.1 ≤ 0 ∨ size.2 ≤ 0 →
  ∃ crops,
    align_eyes imgs mid_eyes = inr crops ∧
    ∀ (i : nat) img shift,
      imgs !! i = Some img → shifts mid_eyes !! i = Some shift →
      let origin := crop_low lo shift in
      let x_crop_high := int64_add origin.1 size.1 in
      let y_crop_high := int64_add origin.2 size.2 in
      ∃ crop,
        crops !! i = Some crop ∧
        crop = getitem img origin.2 y_crop_high origin.1 x_crop_high ∧
        (size.1 ≤ 0 →
         origin.1 = INT64_MIN ∨
         x_crop_high = origin.1 + size.1 ∧
         (width crop = 0%nat ∨
          (x_crop_high < 0 ∧
           width crop = (Z.to_nat (x_crop_high + Z.of_nat (width img))
                         - Z.to_nat origin.1)%nat))) ∧
        (size.2 ≤ 0 →
         origin.2 = INT64_MIN ∨
         y_crop_high = origin.2 + size.2 ∧
         (height crop = 0%nat ∨
          (y_crop_high < 0 ∧
           height crop = (Z.to_nat (y_crop_high + Z.of_nat (height img))
                          - Z.to_nat origin.2)%nat))).
Proof.
  intros Hhd Hlo Hsize _.
  destruct (bound_low_to_high_range _ _ _ Hsize) as [Hr1 Hr2].
  exists (zip_with (crop_img lo size) imgs (shifts mid_eyes)).
  split; [apply align_eyes_inr; by exists img0, lo, size |].
  intros i img shift Himg Hshift origin x_crop_high y_crop_high.
  destruct (crop_low_sign mid_eyes lo shift Hlo) as [Hx Hy];
    [by eapply list_elem_of_lookup_2 |].
  destruct (crop_low_range lo shift) as [Ho1 Ho2].
  fold origin in Hx, Hy, Ho1, Ho2.
  eexists. split.
  { rewrite lookup_zip_with, Himg, Hshift. simpl. reflexivity. }
  rewrite crop_img_getitem. fold origin x_crop_high y_crop_high.
  split; [done |]. unfold getitem. cbn [width height].
  unfold INT64_MIN in *.
  split; intros Hneg.
  - destruct Hx as [Hx | Hx]; [right | by left].
    assert (x_crop_high = origin.1 + size.1) as Hhigh
      by (apply wrap_int64_small; unfold INT64_MIN; lia).
    split; [done |]. apply slice_len_backwards; lia.
  - destruct Hy as [Hy | Hy]; [right | by left].
    assert (y_crop_high = origin.2 + size.2) as Hhigh
      by (apply wrap_int64_small; unfold INT64_MIN; lia).
    split; [done |]. apply slice_len_backwards; lia.
Qed.

(** The third case happens.  With the eye midpoints [(0, 0)] and
    [(2^63, 0)] on images 1000 pixels wide, the size is negative on the x
    axis, the origin of the second image is the least 64-bit integer, its far
    bound wraps around to 1024, and the second crop is the whole image. *)
Example align_eyes_degenerate_overflow :
  let mid_eyes := [(0, 0); (0x1p63, 0)]%float in
  let img := img_row 1000 in
  ∃ lo size,
    bound_low mid_eyes = Some lo ∧
    bound_low_to_high img mid_eyes = Some size ∧ size.1 < 0 ∧
    crop_low lo <$> shifts mid_eyes = [(0, 0); (INT64_MIN, 0)] ∧
    int64_add INT64_MIN size.1 = 1024 ∧
    align_eyes [img; img] mid_eyes = inr [getitem img 0 1 0 0; img].
Proof.
  do 2 eexists. split; [reflexivity |]. split; [reflexivity |].
  split; [by vm_compute |]. split; [by vm_compute |].
  split; by vm_compute.
Qed.

(** ** Identical eye midpoints *)

Lemma foldl_fixes {A} (f : A → A → A) (z : A) (l : list A) :
  f z z = z → Forall (λ x, x = z) l → foldl f z l = z.
Proof.
  intros Hz. induction 1 as [| x l -> _ IH]; [done |]. simpl. by rewrite Hz.
Qed.

Lemma max_axis0_const (a : list point) (z : point) :
  a ≠ [] → Forall (λ x, x = z) a → pmax z z = z → max_axis0 a = Some z.
Proof.
  intros Hne Hall Hz. destruct a as [| p ps]; [done |].
  apply Forall_cons in Hall as [-> Hall]. simpl. f_equal.
  by apply foldl_fixes.
Qed.

Lemma min_axis0_const (a : list point) (z : point) :
  a ≠ [] → Forall (λ x, x = z) a → pmin z z = z → min_axis0 a = Some z.
Proof.
  intros Hne Hall Hz. destruct a as [| p ps]; [done |].
  apply Forall_cons in Hall as [-> Hall]. simpl. f_equal.
  by apply foldl_fixes.
Qed.

(** The conversion of a dimension to a float and back. *)
Lemma astype_int_float_of_nat (n : nat) :
  Z.of_nat n < 2 ^ 53 → astype_int (float_of_nat n) = Z.of_nat n.
Proof.
  intros Hn. destruct (float_of_nat_exact n Hn) as (Hfin & _ & _ & Hval).
  unfold astype_int. rewrite Hfin. cbv zeta.
  rewrite truncate_F2Q, Hval, float_scale_Z, Z.quot_mul by done.
  unfold INT64_MIN.
  destruct (Z.leb_spec (- 2 ^ 63) (Z.of_nat n)); [| lia].
  destruct (Z.ltb_spec (Z.of_nat n) (2 ^ 63)); [done |].
  assert (2 ^ 53 < 2 ^ 63) by done. lia.
Qed.

(** Line 47 when the shifts are all zero. *)
Lemma size_of_zero_shifts (n : nat) :
  Z.of_nat n < 2 ^ 53 →
  astype_int (float_of_nat n + 0 - 0) = Z.of_nat n.
Proof.
  intros Hn. destruct (float_of_nat_exact n Hn) as (Hfin & Hsign & Hzero & _).
  rewrite add_zero_r, sub_zero_r by done.
  by apply astype_int_float_of_nat.
Qed.

Lemma zip_with_fmap_l {A B C} (f : A → B → C) (g : A → C) (l : list A)
    (k : list B) :
  length k = length l →
  (∀ x y, x ∈ l → y ∈ k → f x y = g x) →
  zip_with f l k = g <$> l.
Proof.
  revert k. induction l as [| x l IH]; intros [| y k] Hlen Hf; try done.
  simpl. f_equal.
  - apply Hf; by left.
  - apply IH; [by injection Hlen |].
    intros x' y' Hx' Hy'. apply Hf; by right.
Qed.

Lemma np_maximum_diag (a : float) : np_maximum a a = a.
Proof. unfold np_maximum. by destruct (_ || _). Qed.

Lemma np_minimum_diag (a : float) : np_minimum a a = a.
Proof. unfold np_minimum. by destruct (_ || _). Qed.

(** A float whose difference with itself is finite is finite. *)
Lemma is_finite_sub_diag (x : float) :
  is_finite (x - x) = true → is_finite x = true.
Proof.
  rewrite !is_finite_spec, FloatAxioms.sub_spec.
  by destruct (Prim2SF x) as [[]|[]| |s m e].
Qed.

(** C4, as amended.  When all the eye midpoints of a batch are the same
    point, all the shifts are one vector; when that vector is finite, every
    crop origin is [(0, 0)] and every output is the leading rectangle
    [img[0:size_y, 0:size_x]] of its input.  When moreover the mean of line
    44 is the midpoint itself (no rounding in the sum and in the division),
    the shifts are zero, the crop size is the size of the images (dimensions
    below [2^53]), and [align_eyes] returns the images as they came. *)
Theorem align_eyes_identical_mid_eyes {pixel} (imgs : list (ndarray pixel))
    (mid_eyes : list point) (img0 : ndarray pixel) (m : point) :
  head imgs = Some img0 →
  length mid_eyes = length imgs →
  Forall well_formed imgs →
  Forall (λ img, shape img = shape img0) imgs →
  Z.of_nat (width img0) < 2 ^ 53 → Z.of_nat (height img0) < 2 ^ 53 →
  Forall (λ mid, mid = m) mid_eyes →
  let z := psub (dist_mid_eye mid_eyes) m in
  is_finite z.1 = true → is_finite z.2 = true →
  Forall (λ shift, shift = z) (shifts mid_eyes) ∧
  bound_low mid_eyes = Some z ∧
  Forall (λ shift, crop_low z shift = (0, 0)) (shifts mid_eyes) ∧
  (∃ size,
     bound_low_to_high img0 mid_eyes = Some size ∧
     align_eyes imgs mid_eyes
     = inr ((λ img, getitem img 0 size.2 0 size.1) <$> imgs)) ∧
  (dist_mid_eye mid_eyes = m →
   z = (0, 0)%float ∧
   bound_low_to_high img0 mid_eyes
   = Some (Z.of_nat (width img0), Z.of_nat (height img0)) ∧
   align_eyes imgs mid_eyes = inr imgs).
Proof.
  intros Hhd Hlen Hwf Hshape Hw Hh Hmid z Hf1 Hf2.
  assert (mid_eyes ≠ []) as Hne.
  { destruct imgs; [done |]. by destruct mid_eyes. }
  assert (Forall (λ shift, shift = z) (shifts mid_eyes)) as Hsame.
  { apply Forall_fmap. eapply Forall_impl; [exact Hmid |]. by intros mid ->. }
  assert (shifts mid_eyes ≠ []) as Hne'.
  { intros E. apply Hne. apply (f_equal length) in E.
    rewrite shifts_length in E. by destruct mid_eyes. }
  assert (bound_low mid_eyes = Some z) as Hlo.
  { apply max_axis0_const; [done.. |].
    unfold pmax. rewrite !np_maximum_diag. by destruct z. }
  assert (min_axis0 (shifts mid_eyes) = Some z) as Hmn.
  { apply min_axis0_const; [done.. |].
    unfold pmin. rewrite !np_minimum_diag. by destruct z. }
  assert (crop_low z z = (0, 0)) as Hzero.
  { unfold crop_low, pastype_int, psub. cbn [fst snd].
    by rewrite !sub_diag. }
  assert (∀ shift, shift ∈ shifts mid_eyes → crop_low z shift = (0, 0))
    as Horigin.
  { rewrite Forall_forall in Hsame. by intros shift ->%Hsame. }
  destruct (bound_low_to_high_is_Some img0 mid_eyes Hne) as [size Hsize].
  assert (align_eyes imgs mid_eyes
          = inr ((λ img, getitem img 0 size.2 0 size.1) <$> imgs)) as Hrun.
  { apply align_eyes_inr. exists img0, z, size. do 3 (split; [done |]).
    symmetry. apply zip_with_fmap_l; [by rewrite shifts_length |].
    intros img shift Himg Hshift.
    rewrite crop_img_getitem, (Horigin _ Hshift). cbn [fst snd].
    destruct (bound_low_to_high_range _ _ _ Hsize) as [Hr1 Hr2].
    unfold int64_add. rewrite !Z.add_0_l.
    by rewrite !wrap_int64_small. }
  split; [done |]. split; [done |].
  split; [by apply Forall_forall |].
  split; [by exists size |].
  intros Hmean.
  assert (z = (0, 0)%float) as Hz.
  { unfold z in *. rewrite Hmean in *. unfold psub in *. cbn [fst snd] in *.
    by rewrite !sub_diag by (by apply is_finite_sub_diag). }
  assert (size = (Z.of_nat (width img0), Z.of_nat (height img0))) as ->.
  { apply bound_low_to_high_Some in Hsize as (lo' & mn' & Hlo' & Hmn' & ->).
    assert (lo' = z) as -> by congruence.
    assert (mn' = z) as -> by congruence.
    rewrite Hz. unfold pastype_int, psub, padd, imshape. cbn [fst snd].
    by rewrite !size_of_zero_shifts. }
  split; [done |]. split; [done |].
  rewrite Hrun. f_equal. cbn [fst snd].
  rewrite <- (list_fmap_id imgs) at 2.
  apply Forall_fmap_ext_1, Forall_forall. intros img Himg.
  rewrite Forall_forall in Hshape. specialize (Hshape _ Himg).
  injection Hshape as Hh' Hw' _. rewrite <- Hh', <- Hw'.
  apply getitem_all.
  rewrite Forall_forall in Hwf. by apply Hwf.
Qed.

(** ** Printing shapes *)

Lemma append_assoc (s t u : string) : (s +:+ t) +:+ u = s +:+ (t +:+ u).
Proof.
  induction s as [| c s IH]; [done |].
  change (String c ((s +:+ t) +:+ u) = String c (s +:+ (t +:+ u))).
  by f_equal.
Qed.

Lemma append_nil_r (s : string) : s +:+ "" = s.
Proof.
  induction s as [| c s IH]; [done |].
  change (String c (s +:+ "") = String c s). by f_equal.
Qed.

(** Digits end where the next character is not one. *)
Lemma string_of_uint_app_inj (d d' : Decimal.uint) (c c' : Ascii.ascii)
    (t t' : string) :
  Ascii.is_nat c = None → Ascii.is_nat c' = None →
  NilEmpty.string_of_uint d +:+ String c t
  = NilEmpty.string_of_uint d' +:+ String c' t' →
  d = d' ∧ String c t = String c' t'.
Proof.
  intros Hc Hc'. revert d'.
  induction d as [| d IH | d IH | d IH | d IH | d IH | d IH | d IH | d IH
                  | d IH | d IH ];
    intros [| d' | d' | d' | d' | d' | d' | d' | d' | d' | d' ]; simpl;
    intros H; simplify_eq; try done;
    by destruct (IH d') as [-> ?].
Qed.

Lemma repr_int_app_inj (n n' : nat) (c c' : Ascii.ascii) (t t' : string) :
  Ascii.is_nat c = None → Ascii.is_nat c' = None →
  repr_int n +:+ String c t = repr_int n' +:+ String c' t' →
  n = n' ∧ String c t = String c' t'.
Proof.
  intros Hc Hc' H.
  destruct (string_of_uint_app_inj _ _ _ _ _ _ Hc Hc' H) as [Hd Ht].
  split; [by apply Unsigned.to_uint_inj | done].
Qed.

Lemma concat_repr_cons (n m : nat) (l : list nat) (t : string) :
  String.concat ", " (repr_int <$> n :: m :: l) +:+ t
  = repr_int n +:+ ", " +:+ String.concat ", " (repr_int <$> m :: l) +:+ t.
Proof.
  change (String.concat ", " (repr_int <$> n :: m :: l))
    with (repr_int n +:+ ", " +:+ String.concat ", " (repr_int <$> m :: l)).
  by rewrite !append_assoc.
Qed.

Lemma concat_repr_inj (n n' : nat) (l l' : list nat) (t t' : string) :
  String.concat ", " (repr_int <$> n :: l) +:+ ")" +:+ t
  = String.concat ", " (repr_int <$> n' :: l') +:+ ")" +:+ t' →
  n :: l = n' :: l' ∧ t = t'.
Proof.
  revert n n' l'. induction l as [| m l IH]; intros n n' [| m' l'] H.
  - apply repr_int_app_inj in H as [-> H]; [| done..]. by simplify_eq.
  - rewrite concat_repr_cons in H.
    apply repr_int_app_inj in H as [-> H]; [| done..]. by simplify_eq.
  - rewrite concat_repr_cons in H.
    apply repr_int_app_inj in H as [-> H]; [| done..]. by simplify_eq.
  - rewrite !concat_repr_cons in H.
    apply repr_int_app_inj in H as [-> H]; [| done..].
    simpl in H. simplify_eq.
    destruct (IH m m' l' ) as [Heq ->]; [done |]. by simplify_eq.
Qed.

Lemma concat_repr_nonempty (n : nat) (l : list nat) (t t' : string) :
  String.concat ", " (repr_int <$> n :: l) +:+ ")" +:+ t
  ≠ String.concat ", " (repr_int <$> []) +:+ ")" +:+ t'.
Proof.
  intros H.
  assert (∃ c r, Ascii.is_nat c = None ∧
                 String.concat ", " (repr_int <$> n :: l) +:+ ")" +:+ t
                 = repr_int n +:+ String c r) as (c & r & Hc & Heq).
  { destruct l as [| m l]; [by exists ")"%char, t |].
    rewrite concat_repr_cons. by eexists ","%char, _. }
  rewrite Heq in H.
  apply (string_of_uint_app_inj _ Decimal.Nil c ")" r t') in H as [Hnil _]; [| done..].
  pose proof (f_equal Nat.of_uint Hnil) as Hn.
  rewrite Unsigned.of_to in Hn. subst n. discriminate Hnil.
Qed.

(** A printed shape, followed by anything, reads back in one way. *)
Lemma repr_shape_app_inj (s s' : list nat) (t t' : string) :
  repr_shape s +:+ t = repr_shape s' +:+ t' → s = s' ∧ t = t'.
Proof.
  unfold repr_shape. rewrite !append_assoc. intros H.
  apply (inj (String.app "(")) in H.
  destruct s as [| n l], s' as [| n' l'].
  - by simplify_eq.
  - symmetry in H. by apply concat_repr_nonempty in H.
  - by apply concat_repr_nonempty in H.
  - by apply concat_repr_inj.
Qed.

(** The message of the shape check tells both shapes. *)
Lemma incompatible_shapes_inj (s s0 s' s0' : list nat) :
  incompatible_shapes s s0 = incompatible_shapes s' s0' → s = s' ∧ s0 = s0'.
Proof.
  unfold incompatible_shapes. intros H.
  apply (inj (String.app _)) in H.
  apply repr_shape_app_inj in H as [-> H].
  apply (inj (String.app _)) in H.
  rewrite <- (append_nil_r (repr_shape s0)) in H.
  rewrite <- (append_nil_r (repr_shape s0')) in H.
  by apply repr_shape_app_inj in H as [-> _].
Qed.

(** ** The monad: running [find_mid_eye], the shape loop and [main] *)

Section MainFacts.
Context {pixel : Type}.
Implicit Types (img : ndarray pixel) (imgs log : list (ndarray pixel)).
Implicit Types (b : batch pixel).
Variable detect_faces : ndarray pixel → gmap string face.

(** One call of the detector, whatever it answers. *)
Lemma find_mid_eye_log img log :
  (find_mid_eye detect_faces img log).2 = log ++ [img].
Proof.
  unfold find_mid_eye, bind, detect, raise, ret.
  destruct (size (detect_faces img) =? 0)%nat; [done |].
  destruct (2 <=? size (detect_faces img))%nat; [done |].
  by destruct (detect_faces img !! "face_1").
Qed.

Lemma find_mid_eye_no_face img log :
  size (detect_faces img) = 0%nat →
  find_mid_eye detect_faces img log
  = (inl (FaceDetectionError "No face detected."), log ++ [img]).
Proof. intros H. unfold find_mid_eye, bind, detect, raise. by rewrite H. Qed.

Lemma find_mid_eye_many_faces img log :
  (2 ≤ size (detect_faces img))%nat →
  find_mid_eye detect_faces img log
  = (inl (FaceDetectionError "Too many faces detected."), log ++ [img]).
Proof.
  intros H. unfold find_mid_eye, bind, detect, raise.
  destruct (Nat.eqb_spec (size (detect_faces img)) 0); [lia |].
  destruct (Nat.leb_spec 2 (size (detect_faces img))); [done | lia].
Qed.

Lemma find_mid_eye_one_face img log :
  size (detect_faces img) = 1%nat →
  find_mid_eye detect_faces img log
  = (match detect_faces img !! "face_1" with
     | Some f => inr (mid_eye f)
     | None => inl (KeyError "face_1")
     end, log ++ [img]).
Proof.
  intros H. unfold find_mid_eye, bind, detect, raise, ret. rewrite H. simpl.
  by destruct (detect_faces img !! "face_1").
Qed.

(** The comprehension over a batch whose images all show one face filed
    under ["face_1"]: one midpoint per image, one detector call per image,
    in the order of the batch. *)
Lemma for_each_find_mid_eye imgs (faces : list face) log :
  Forall2 (λ img f, size (detect_faces img) = 1%nat ∧
                    detect_faces img !! "face_1" = Some f) imgs faces →
  for_each (find_mid_eye detect_faces) imgs log
  = (inr (mid_eye <$> faces), log ++ imgs).
Proof.
  intros Hall. revert log.
  induction Hall as [| img f imgs faces [Hone Hkey] _ IH]; intros log; simpl.
  - unfold ret. by rewrite app_nil_r.
  - unfold bind at 1. rewrite find_mid_eye_one_face, Hkey by done.
    unfold bind at 1. rewrite IH. unfold ret.
    by rewrite <- app_assoc.
Qed.

Lemma check_shapes_same (shape0 : list nat) imgs log :
  Forall (λ img, shape img = shape0) imgs →
  check_shapes shape0 imgs log = (inr tt, log).
Proof.
  induction 1 as [| img imgs Himg _ IH]; simpl; [done |].
  by destruct (decide (shape img ≠ shape0)).
Qed.

(** The loop stops at the first image of another shape. *)
Lemma check_shapes_differ (shape0 : list nat) imgs img imgs' log :
  Forall (λ img, shape img = shape0) imgs →
  shape img ≠ shape0 →
  check_shapes shape0 (imgs ++ img :: imgs') log
  = (inl (ValueError ("Incompatible shapes " +:+ repr_shape (shape img)
                      +:+ " and " +:+ repr_shape shape0)), log).
Proof.
  intros Hsame Hdiff.
  induction Hsame as [| img1 imgs Himg1 _ IH]; simpl.
  - by destruct (decide (shape img ≠ shape0)).
  - by destruct (decide (shape img1 ≠ shape0)).
Qed.

(** [main] on a batch of at most one image. *)
Lemma main_copy b log :
  (length (items b) ≤ 1)%nat → main detect_faces b log = (copy b, log).
Proof.
  intros Hlen. unfold main.
  by destruct (Nat.leb_spec (length (items b)) 1); [| lia].
Qed.

(** [main] on a batch of two or more images. *)
Lemma main_long b img0 img1 imgs log :
  items b = img0 :: img1 :: imgs →
  main detect_faces b log
  = bind (check_shapes (shape img0) (items b))
      (λ _, bind (for_each (find_mid_eye detect_faces) (items b))
              (λ mid_eyes,
                 bind (lift (align_eyes (items b) mid_eyes))
                   (λ cropped_imgs, ret (mk_batch PyList cropped_imgs))))
      log.
Proof. intros E. unfold main. by rewrite E. Qed.
End MainFacts.

(** The first element of a list that fails a decidable test. *)
Lemma first_failure {A} (P : A → Prop) `{∀ x, Decision (P x)} (l : list A) :
  ¬ Forall P l → ∃ pre x post, l = pre ++ x :: post ∧ Forall P pre ∧ ¬ P x.
Proof.
  induction l as [| a l IH]; intros Hnot.
  - destruct Hnot. constructor.
  - destruct (decide (P a)) as [Ha | Ha].
    + destruct IH as (pre & x & post & -> & Hpre & Hx).
      { intros Hl. apply Hnot. by constructor. }
      exists (a :: pre), x, post. split; [done |]. split; [by constructor | done].
    + exists [], a, l. split; [done |]. split; [constructor | done].
Qed.

(** The midpoint between the eyes is, on each axis, the rounded sum of the
    two coordinates divided by two. *)
Lemma mid_eye_mean (f : face) :
  let l := left_eye (landmarks f) in
  let r := right_eye (landmarks f) in
  mid_eye f = ((l.1 + r.1) / 2, (l.2 + r.2) / 2)%float.
Proof. reflexivity. Qed.

(** ** [find_mid_eye] *)

(** C7, as amended.  [find_mid_eye] calls the detector once.  It raises
    [FaceDetectionError "No face detected."] when the detector returns no
    face and [FaceDetectionError "Too many faces detected."] when it returns
    two or more; when it returns one face filed under ["face_1"] it returns
    the mean of that face's left-eye and right-eye coordinates, as binary64
    computes it; when the one face is filed under another key it raises
    [KeyError]; it raises [FaceDetectionError] in no other case. *)
Theorem find_mid_eye_cases {pixel}
    (detect_faces : ndarray pixel → gmap string face)
    (img : ndarray pixel) (log : list (ndarray pixel)) :
  let faces := detect_faces img in
  let result := find_mid_eye detect_faces img log in
  result.2 = log ++ [img] ∧
  (size faces = 0%nat →
   result.1 = inl (FaceDetectionError "No face detected.")) ∧
  ((2 ≤ size faces)%nat →
   result.1 = inl (FaceDetectionError "Too many faces detected.")) ∧
  (∀ f, size faces = 1%nat → faces !! "face_1" = Some f →
     result.1 = inr (mid_eye f) ∧
     mid_eye f
     = (((left_eye (landmarks f)).1 + (right_eye (landmarks f)).1) / 2,
        ((left_eye (landmarks f)).2 + (right_eye (landmarks f)).2) / 2)%float) ∧
  (size faces = 1%nat → faces !! "face_1" = None →
   result.1 = inl (KeyError "face_1")) ∧
  (∀ msg, result.1 = inl (FaceDetectionError msg) →
     size faces = 0%nat ∨ (2 ≤ size faces)%nat).
Proof.
  intros faces result. subst result faces.
  split; [apply find_mid_eye_log |].
  split; [intros H0; by rewrite find_mid_eye_no_face |].
  split; [intros H2; by rewrite find_mid_eye_many_faces |].
  split; [| split].
  - intros f H1 Hf. rewrite find_mid_eye_one_face, Hf by done.
    split; [done | apply mid_eye_mean].
  - intros H1 Hf. by rewrite find_mid_eye_one_face, Hf.
  - intros msg Hraise.
    destruct (decide (size (detect_faces img) = 1%nat)) as [H1 | H1]; [| lia].
    rewrite find_mid_eye_one_face in Hraise by done.
    by destruct (detect_faces img !! "face_1").
Qed.

(** C10.  When the detector returns exactly one face, [find_mid_eye]
    returns a midpoint if and only if that face is filed under the key
    ["face_1"]; under any other key the lookup fails with [KeyError]. *)
Theorem find_mid_eye_face_1_key {pixel}
    (detect_faces : ndarray pixel → gmap string face)
    (img : ndarray pixel) (log : list (ndarray pixel))
    (key : string) (f : face) :
  detect_faces img = {[ key := f ]} →
  let result := (find_mid_eye detect_faces img log).1 in
  (key = "face_1" → result = inr (mid_eye f)) ∧
  (key ≠ "face_1" → result = inl (KeyError "face_1")) ∧
  ((∃ m, result = inr m) ↔ key = "face_1").
Proof.
  intros Hfaces result. subst result.
  rewrite find_mid_eye_one_face by (by rewrite Hfaces, map_size_singleton).
  rewrite Hfaces. cbn [fst].
  destruct (decide (key = "face_1")) as [-> | Hne].
  - rewrite lookup_singleton_eq. split; [done |]. split; [done |].
    split; [done | by eexists].
  - rewrite lookup_singleton_ne by done. split; [done |]. split; [done |].
    split; [by intros [m ?] | done].
Qed.

(** ** [main] *)

(** C5, where the code departs from it.  On a batch of no image or of one
    image, [main] calls [imgs.copy()] and never the detector: a list or an
    array comes back as it is, and a tuple, which has no such method, raises
    [AttributeError]. *)
Theorem main_short {pixel}
    (detect_faces : ndarray pixel → gmap string face)
    (imgs : batch pixel) (log : list (ndarray pixel)) :
  (length (items imgs) ≤ 1)%nat →
  (kind imgs ≠ PyTuple → main detect_faces imgs log = (inr imgs, log)) ∧
  (kind imgs = PyTuple →
   main detect_faces imgs log
   = (inl (AttributeError "'tuple' object has no attribute 'copy'"), log)).
Proof.
  intros Hlen. rewrite main_copy by done. unfold copy.
  split; [by destruct (kind imgs) | by intros ->].
Qed.

(** C6.  On a batch of two or more images, one of which has another shape
    than the first, [main] raises [ValueError] with the message
    [Incompatible shapes s and s0], where [s] is the shape of the first such
    image and [s0] the shape of the first image; no other pair of shapes
    prints as that message; and the detector has not been called. *)
Theorem main_shape_mismatch {pixel}
    (detect_faces : ndarray pixel → gmap string face)
    (imgs : batch pixel) (log : list (ndarray pixel))
    (img0 : ndarray pixel) :
  (2 ≤ length (items imgs))%nat →
  head (items imgs) = Some img0 →
  ¬ Forall (λ img, shape img = shape img0) (items imgs) →
  ∃ before img after,
    items imgs = before ++ img :: after ∧
    Forall (λ img', shape img' = shape img0) before ∧
    shape img ≠ shape img0 ∧
    main detect_faces imgs log
    = (inl (ValueError (incompatible_shapes (shape img) (shape img0))), log) ∧
    ∀ s s0,
      incompatible_shapes s s0
      = incompatible_shapes (shape img) (shape img0) →
      s = shape img ∧ s0 = shape img0.
Proof.
  intros Hlen Hhd Hdiff.
  destruct (first_failure _ (items imgs) Hdiff)
    as (pre & img & post & Heq & Hpre & Himg).
  exists pre, img, post. do 3 (split; [done |]).
  split; [| intros s s0 Hmsg; by apply incompatible_shapes_inj].
  destruct (items imgs) as [| img0' [| img1 rest]] eqn:E;
    simpl in Hlen; try lia.
  injection Hhd as ->.
  rewrite (main_long _ _ _ _ _ _ E), E, Heq. unfold bind at 1.
  by rewrite check_shapes_differ.
Qed.

Section CropShape.
Context {pixel : Type}.
Implicit Types (img : ndarray pixel).

(** A rectangle that fits gives a slice of the shared size. *)
Lemma crop_img_regular img img0 (mid_eyes : list point) (lo shift : point)
    (size : Z * Z) :
  bound_low_to_high img0 mid_eyes = Some size →
  shape img = shape img0 → crop_fits lo size img0 shift →
  let crop := crop_img lo size img shift in
  height crop = Z.to_nat size.2 ∧ width crop = Z.to_nat size.1 ∧
  channels crop = channels img ∧
  (Z.to_nat size.2 ≤ height img)%nat ∧ (Z.to_nat size.1 ≤ width img)%nat.
Proof.
  intros Hsize Hshape Hfit.
  destruct (bound_low_to_high_range _ _ _ Hsize) as [Hr1 Hr2].
  apply (crop_fits_shape _ _ img img0) in Hfit; [| done].
  destruct (crop_fits_rect _ _ _ _ Hr1 Hr2 Hfit)
    as ((Hx & Hy & Hxw & Hyh) & Hw & Hh & Ex & Ey).
  intros crop. subst crop.
  rewrite crop_img_getitem, Ex, Ey. unfold getitem. cbn [height width channels].
  rewrite !slice_len_in by lia. do 3 (split; [done |]). lia.
Qed.
End CropShape.

(** C8, as amended.  On a batch of two or more same-shaped images, each of
    which shows the detector one face filed under ["face_1"], and whose crop
    rectangles, as [align_eyes] computes them in binary64 and 64-bit
    integers, lie inside the images, [main] calls the detector once per image
    in order and returns a list of one crop per image, in the order of the
    batch: crop [i] is the slice of image [i], all crops have the one shape
    [(size_y, size_x, *channels)], and no crop is higher or wider than its
    image. *)
Theorem main_aligned {pixel}
    (detect_faces : ndarray pixel → gmap string face)
    (imgs : batch pixel) (log : list (ndarray pixel)) (img0 : ndarray pixel)
    (faces : list face) (lo : point) (crop_size : Z * Z) :
  (2 ≤ length (items imgs))%nat →
  head (items imgs) = Some img0 →
  Forall (λ img, shape img = shape img0) (items imgs) →
  Forall2 (λ img f, size (detect_faces img) = 1%nat ∧
                    detect_faces img !! "face_1" = Some f) (items imgs) faces →
  let mid_eyes := mid_eye <$> faces in
  bound_low mid_eyes = Some lo →
  bound_low_to_high img0 mid_eyes = Some crop_size →
  Forall (λ shift, crop_fits lo crop_size img0 shift) (shifts mid_eyes) →
  ∃ crops,
    main detect_faces imgs log
    = (inr (mk_batch PyList crops), log ++ items imgs) ∧
    length crops = length (items imgs) ∧
    ∀ (i : nat) img f,
      items imgs !! i = Some img → faces !! i = Some f →
      ∃ crop,
        crops !! i = Some crop ∧
        crop = crop_img lo crop_size img
                 (psub (dist_mid_eye mid_eyes) (mid_eye f)) ∧
        shape crop = Z.to_nat crop_size.2 :: Z.to_nat crop_size.1 :: channels img ∧
        (height crop ≤ height img)%nat ∧ (width crop ≤ width img)%nat.
Proof.
  intros Hlen Hhd Hshape Hfaces mid_eyes Hlo Hsize Hfits.
  exists (zip_with (crop_img lo crop_size) (items imgs) (shifts mid_eyes)).
  pose proof (Forall2_length _ _ _ Hfaces) as Hlen'.
  split; [| split].
  - destruct (items imgs) as [| img0' [| img1 rest]] eqn:E;
      simpl in Hlen; try lia.
    injection Hhd as ->.
    rewrite (main_long _ _ _ _ _ _ E), E. unfold bind at 1.
    rewrite check_shapes_same by done.
    unfold bind at 1. rewrite (for_each_find_mid_eye _ _ faces) by done.
    unfold bind, lift, ret. fold mid_eyes.
    assert (align_eyes (img0 :: img1 :: rest) mid_eyes
            = inr (zip_with (crop_img lo crop_size) (img0 :: img1 :: rest)
                     (shifts mid_eyes))) as ->; [| done].
    apply align_eyes_inr. by exists img0, lo, crop_size.
  - rewrite length_zip_with, shifts_length. unfold mid_eyes.
    rewrite length_fmap. lia.
  - intros i img f Himg Hf.
    assert (mid_eyes !! i = Some (mid_eye f)) as Hmid
      by (unfold mid_eyes; by rewrite list_lookup_fmap, Hf).
    eexists. split.
    { rewrite lookup_zip_with, Himg, shifts_lookup, Hmid. simpl. reflexivity. }
    split; [done |].
    rewrite Forall_lookup in Hshape. rewrite Forall_forall in Hfits.
    destruct (crop_img_regular img img0 mid_eyes lo
                (psub (dist_mid_eye mid_eyes) (mid_eye f)) crop_size)
      as (Hh' & Hw' & Hc' & Hle_h & Hle_w); eauto.
    { apply Hfits. apply list_elem_of_fmap_2. by eapply list_elem_of_lookup_2. }
    unfold shape. rewrite Hh', Hw', Hc'. done.
Qed.

(** ** The scenario with three images *)

(** C3.  Three images of shape [(100, 100, 3)] with eye midpoints
    [(40, 50)], [(50, 50)] and [(60, 50)]: the reference midpoint is
    [(50, 50)], the shifts are [(10, 0)], [(0, 0)], [(-10, 0)], [bound_low]
    is [(10, 0)], the crop size is [(80, 100)], the crop origins are
    [(0, 0)], [(10, 0)], [(20, 0)], every output is 80 wide and 100 high and
    its eye midpoint sits at x-offset 40. *)
Theorem scenario_three_images {pixel} (px1 px2 px3 : list (list pixel)) :
  let img1 := mk_ndarray 100 100 [3%nat] px1 in
  let img2 := mk_ndarray 100 100 [3%nat] px2 in
  let img3 := mk_ndarray 100 100 [3%nat] px3 in
  let origins := [(0, 0); (10, 0); (20, 0)] in
  dist_mid_eye scenario_mid_eyes = (50, 50)%float ∧
  shifts scenario_mid_eyes = [(10, 0); (0, 0); (-10, 0)]%float ∧
  (∃ lo, bound_low scenario_mid_eyes = Some lo ∧ lo = (10, 0)%float ∧
         crop_low lo <$> shifts scenario_mid_eyes = origins) ∧
  (∃ mn, min_axis0 (shifts scenario_mid_eyes) = Some mn ∧
         mn = (-10, 0)%float) ∧
  bound_low_to_high img1 scenario_mid_eyes = Some (80, 100) ∧
  (∃ crop1 crop2 crop3,
     align_eyes [img1; img2; img3] scenario_mid_eyes
     = inr [crop1; crop2; crop3] ∧
     crop1 = getitem img1 0 100 0 80 ∧
     crop2 = getitem img2 0 100 10 90 ∧
     crop3 = getitem img3 0 100 20 100 ∧
     Forall (λ crop, shape crop = [100; 80; 3]%nat) [crop1; crop2; crop3]) ∧
  Forall2 (λ mid origin, ((eye_offset mid origin).1 == 40)%Q)
    scenario_mid_eyes origins.
Proof.
  intros img1 img2 img3 origins.
  split; [by vm_compute |].
  split; [by vm_compute |].
  split; [eexists; split; [reflexivity | split; by vm_compute] |].
  split; [eexists; split; [reflexivity | by vm_compute] |].
  split; [by vm_compute |].
  split; [| repeat constructor; by vm_compute].
  do 3 eexists. split; [by vm_compute |].
  do 3 (split; [reflexivity |]).
  repeat constructor.
Qed.

(** ** Where the stated claims stop *)

(** C1, as stated, fails.  With eye midpoints [(0.5, 0)] and [(1, 0)] both
    crop origins truncate to [(0, 0)], so the midpoints sit at [0.5] and at
    [1] in their crops.  With eye midpoints [(0, 0)] and [(6, 0)] on images
    four pixels wide the size is [-2] on the x axis and the two crops are 2
    and 0 pixels wide.  With eye midpoints [(2.3, 0)], [(3.3, 0)] and
    [(0.3, 0)] the rounded subtractions give the origins 1, 3 and 0: the
    first two midpoints, one pixel apart, land one whole pixel apart in their
    crops. *)
Lemma align_eyes_not_exact :
  (let mid_eyes := [(0.5, 0); (1, 0)]%float in
   ∃ lo crop_a crop_c,
     bound_low mid_eyes = Some lo ∧
     align_eyes [img_a; img_c] mid_eyes = inr [crop_a; crop_c] ∧
     crop_low lo <$> shifts mid_eyes = [(0, 0); (0, 0)] ∧
     ¬ peq (eye_offset (0.5, 0)%float (0, 0)) (eye_offset (1, 0)%float (0, 0))) ∧
  (let mid_eyes := [(0, 0); (6, 0)]%float in
   bound_low_to_high img_a mid_eyes = Some (-2, 1) ∧
   align_eyes [img_a; img_b] mid_eyes
   = inr [mk_ndarray 1 2 [] [[0; 11]]; mk_ndarray 1 0 [] [[]]]) ∧
  (let mid_eyes := [(2.3, 0); (3.3, 0); (0.3, 0)]%float in
   ∃ lo,
     bound_low mid_eyes = Some lo ∧
     crop_low lo <$> shifts mid_eyes = [(1, 0); (3, 0); (0, 0)] ∧
     whole_pixels_apart (3.3, 0)%float (2.3, 0)%float ∧
     ((eye_offset (2.3, 0)%float (1, 0)%Z).1
      - (eye_offset (3.3, 0)%float (3, 0)%Z).1 == 1)%Q).
Proof.
  split; [| split].
  - do 3 eexists. split; [reflexivity |]. split; [by vm_compute |].
    split; [by vm_compute |]. intros [Hx _]. by vm_compute in Hx.
  - split; by vm_compute.
  - eexists. split; [reflexivity |]. split; [by vm_compute |].
    split; [exists 1, 0; split; by vm_compute | by vm_compute].
Qed.

(** C2, as stated, fails.  With eye midpoints [(10, 0)], [(14.2, 0)] and
    [(3.2, 0)] on images ten pixels wide the size is 0 on the x axis and the
    second origin is 11: the rectangle ends at 11.  With [(-0.8, 0)] and
    [(9.2, 0)] on images four pixels wide the size is -5 and the second
    origin 10: the rectangle ends at 5.  With [(1e30, 0)] and [(0, 0)] the
    first origin is the least 64-bit integer. *)
Lemma crop_rectangle_exceeds :
  (let mid_eyes := [(10, 0); (14.2, 0); (3.2, 0)]%float in
   ∃ lo crops,
     align_eyes [img_row 10; img_row 10; img_row 10] mid_eyes = inr crops ∧
     bound_low mid_eyes = Some lo ∧
     bound_low_to_high (img_row 10) mid_eyes = Some (0, 1) ∧
     crop_low lo <$> shifts mid_eyes = [(6, 0); (11, 0); (0, 0)] ∧
     ¬ 11 + 0 ≤ Z.of_nat (width (img_row 10))) ∧
  (let mid_eyes := [(-0.8, 0); (9.2, 0)]%float in
   ∃ lo crops,
     align_eyes [img_a; img_b] mid_eyes = inr crops ∧
     bound_low mid_eyes = Some lo ∧
     bound_low_to_high img_a mid_eyes = Some (-5, 1) ∧
     crop_low lo <$> shifts mid_eyes = [(0, 0); (10, 0)] ∧
     ¬ 10 + -5 ≤ Z.of_nat (width img_b)) ∧
  (let mid_eyes := [(1e30, 0); (0, 0)]%float in
   ∃ lo crops,
     align_eyes [img_a; img_b] mid_eyes = inr crops ∧
     bound_low mid_eyes = Some lo ∧
     crop_low lo <$> shifts mid_eyes = [(INT64_MIN, 0); (0, 0)] ∧
     ¬ 0 ≤ INT64_MIN).
Proof.
  split; [| split].
  - do 2 eexists. split; [reflexivity |]. split; [reflexivity |].
    split; [by vm_compute |]. split; [by vm_compute |]. by vm_compute.
  - do 2 eexists. split; [reflexivity |]. split; [reflexivity |].
    split; [by vm_compute |]. split; [by vm_compute |]. by vm_compute.
  - do 2 eexists. split; [reflexivity |]. split; [reflexivity |].
    split; [by vm_compute |]. by vm_compute.
Qed.

(** C4, as stated, fails.  Three images four pixels wide with the one eye
    midpoint [(3.7, 0)]: the mean of line 44 is [3.7000000000000006], the
    shifts are not zero, the size is 3 on the x axis, and [align_eyes]
    returns crops three pixels wide. *)
Lemma align_eyes_identical_cropped :
  let mid_eyes := [(3.7, 0); (3.7, 0); (3.7, 0)]%float in
  dist_mid_eye mid_eyes = (3.7000000000000006, 0)%float ∧
  Forall (λ shift, shift ≠ (0, 0)%float) (shifts mid_eyes) ∧
  bound_low_to_high img_a mid_eyes = Some (3, 1) ∧
  align_eyes [img_a; img_a; img_a] mid_eyes
  = inr [getitem img_a 0 1 0 3; getitem img_a 0 1 0 3; getitem img_a 0 1 0 3] ∧
  width (getitem img_a 0 1 0 3) = 3%nat ∧ width img_a = 4%nat.
Proof.
  split; [by vm_compute |].
  split; [repeat constructor; by vm_compute |].
  split; [by vm_compute |].
  split; [by vm_compute |]. done.
Qed.

(** C7, as stated, fails.  The detector returns exactly one face, filed
    under ["face_2"]: [find_mid_eye] raises [KeyError] and returns no
    midpoint. *)
Lemma find_mid_eye_other_key :
  size (probe_detect "face_2" img_a) = 1%nat ∧
  find_mid_eye (probe_detect "face_2") img_a []
  = (inl (KeyError "face_1"), [img_a]).
Proof. split; by vm_compute. Qed.

(** C8, as stated, fails.  Two images of one shape, one face each: with eye
    midpoints [(0, 0)] and [(6, 0)] on images four pixels wide, [main]
    returns crops of widths 2 and 0; and with the one face of each image
    filed under ["face_2"], [main] returns no crops at all. *)
Lemma main_not_uniform :
  Forall (λ img, size (probe_detect "face_1" img) = 1%nat) [img_a; img_b] ∧
  shape img_a = shape img_b ∧
  main (probe_detect "face_1") (mk_batch PyList [img_a; img_b]) []
  = (inr (mk_batch PyList
            [mk_ndarray 1 2 [] [[0; 11]]; mk_ndarray 1 0 [] [[]]]),
     [img_a; img_b]) ∧
  Forall (λ img, size (probe_detect "face_2" img) = 1%nat) [img_a; img_c] ∧
  main (probe_detect "face_2") (mk_batch PyList [img_a; img_c]) []
  = (inl (KeyError "face_1"), [img_a]).
Proof.
  split; [repeat constructor |]. split; [reflexivity |].
  split; [by vm_compute |].
  split; [repeat constructor | by vm_compute].
Qed.

(** ** The theorems at sample batches *)

(** Midpoints [(0.5, 0)] and [(2, 0)]: every operation is exact, the
    origins are 0 and 1 and the size is 2. *)
Lemma align_eyes_aligned_sample :
  ∃ crops,
    align_eyes [img_a; img_c] [(0.5, 0); (2, 0)]%float = inr crops ∧
    length crops = 2%nat ∧
    (-1 < (eye_offset (0.5, 0)%float (0, 0)%Z).1
          - (eye_offset (2, 0)%float (1, 0)%Z).1 < 1)%Q.
Proof.
  edestruct (align_eyes_aligned [img_a; img_c] [(0.5, 0); (2, 0)]%float img_a)
    as (crops & Hrun & Hlen & _ & Hclose).
  - reflexivity.
  - reflexivity.
  - repeat constructor.
  - reflexivity.
  - reflexivity.
  - repeat constructor; by vm_compute.
  - exists crops. split; [exact Hrun |]. split; [exact Hlen |].
    apply (Hclose (0.5, 0)%float (2, 0)%float).
    + by left.
    + right. by left.
    + by vm_compute.
    + by vm_compute.
    + by vm_compute.
    + by vm_compute.
Defined.

Lemma crop_rectangle_invariant_sample :
  ∃ lo size,
    bound_low [(0, 0); (2, 0)]%float = Some lo ∧
    bound_low_to_high img_a [(0, 0); (2, 0)]%float = Some size ∧
    let origin := crop_low lo (psub (dist_mid_eye [(0, 0); (2, 0)]%float)
                                 (2, 0)%float) in
    (0 ≤ origin.1 ∨ origin.1 = INT64_MIN) ∧
    origin.1 + size.1 ≤ Z.of_nat (width img_c).
Proof.
  edestruct (crop_rectangle_invariant [img_a; img_c] [(0, 0); (2, 0)]%float img_a)
    as (lo & mn & size & Hlo & Hmn & Hsize & _ & Hfit).
  - reflexivity.
  - repeat constructor.
  - reflexivity.
  - exists lo, size. split; [exact Hlo |]. split; [exact Hsize |].
    destruct (Hfit 1%nat img_c
                (psub (dist_mid_eye [(0, 0); (2, 0)]%float) (2, 0)%float))
      as (Hx & _ & Hxw & _); [reflexivity.. |].
    injection Hlo as <-. injection Hmn as <-.
    split; [exact Hx |]. apply Hxw; by vm_compute.
Defined.

(** Two images with the eye midpoint [(3.7, 0)]: the mean of the two
    is [3.7]. *)
Lemma align_eyes_identical_mid_eyes_sample :
  align_eyes [img_a; img_c] [(3.7, 0); (3.7, 0)]%float = inr [img_a; img_c].
Proof.
  apply (align_eyes_identical_mid_eyes [img_a; img_c]
           [(3.7, 0); (3.7, 0)]%float img_a (3.7, 0)%float).
  - reflexivity.
  - reflexivity.
  - repeat constructor.
  - repeat constructor.
  - by vm_compute.
  - by vm_compute.
  - repeat constructor.
  - reflexivity.
  - reflexivity.
  - reflexivity.
Defined.

Lemma align_eyes_degenerate_sample :
  ∃ crops, align_eyes [img_a; img_b] [(0, 0); (6, 0)]%float = inr crops.
Proof.
  edestruct (align_eyes_degenerate [img_a; img_b] [(0, 0); (6, 0)]%float img_a)
    as (crops & Hrun & _).
  - reflexivity.
  - reflexivity.
  - reflexivity.
  - left. by vm_compute.
  - exists crops. exact Hrun.
Defined.

Lemma find_mid_eye_face_1_key_sample :
  (find_mid_eye (probe_detect "face_2") img_a []).1
  = inl (KeyError "face_1").
Proof.
  eapply (find_mid_eye_face_1_key (probe_detect "face_2") img_a [] "face_2").
  - reflexivity.
  - discriminate.
Defined.

(** A tuple of one image. *)
Lemma main_short_sample :
  main (probe_detect "face_1") (mk_batch PyTuple [img_a]) []
  = (inl (AttributeError "'tuple' object has no attribute 'copy'"), []).
Proof.
  apply (main_short (probe_detect "face_1") (mk_batch PyTuple [img_a]) []).
  - simpl. lia.
  - reflexivity.
Defined.

Lemma main_shape_mismatch_sample :
  ∃ img : ndarray Z,
    shape img ≠ shape img_a ∧
    main (probe_detect "face_1") (mk_batch PyTuple [img_a; img_wide; img_c]) []
    = (inl (ValueError (incompatible_shapes (shape img) (shape img_a))), []).
Proof.
  destruct (main_shape_mismatch (probe_detect "face_1")
              (mk_batch PyTuple [img_a; img_wide; img_c]) [] img_a)
    as (before & img & after & _ & _ & Hne & Hrun & _).
  - simpl. lia.
  - reflexivity.
  - intros Hsame. apply Forall_cons in Hsame as [_ Hsame].
    apply Forall_cons in Hsame as [Hwide _]. discriminate Hwide.
  - exists img. split; [exact Hne | exact Hrun].
Defined.

Lemma main_aligned_sample :
  ∃ crops,
    main (probe_detect "face_1") (mk_batch PyTuple [img_a; img_c]) []
    = (inr (mk_batch PyList crops), [img_a; img_c]) ∧
    length crops = 2%nat.
Proof.
  edestruct (main_aligned (probe_detect "face_1")
               (mk_batch PyTuple [img_a; img_c]) [] img_a
               [mk_face (mk_landmarks (0, 0) (0, 0))%float;
                mk_face (mk_landmarks (2, 0) (2, 0))%float])
    as (crops & Hrun & Hlen & _).
  - simpl. lia.
  - reflexivity.
  - repeat constructor.
  - repeat constructor.
  - reflexivity.
  - reflexivity.
  - repeat constructor; by vm_compute.
  - exists crops. split; [exact Hrun | exact Hlen].
Defined.

(** * Further properties of the three functions *)

(** ** What every crop keeps *)

Lemma py_slice_infix {A} (lo hi : Z) (l : list A) :
  ∃ l1 l2, l = l1 ++ py_slice lo hi l ++ l2.
Proof.
  unfold py_slice.
  exists (take (slice_index lo (length l)) l),
         (drop (slice_len lo hi (length l)) (drop (slice_index lo (length l)) l)).
  by rewrite take_drop, take_drop.
Qed.

(** X3.  Whatever the midpoints, [align_eyes] returns as many crops as the
    shorter of its two arguments has entries, and crop [i] is cut out of
    image [i]: it is not higher and not wider than the image, it has the
    channels of the image, every row of its pixels is a contiguous part of a
    row of the image, and its rows agree with its shape when those of the
    image do. *)
Theorem align_eyes_crops_within {pixel} (imgs : list (ndarray pixel))
    (mid_eyes : list point) (crops : list (ndarray pixel)) :
  align_eyes imgs mid_eyes = inr crops →
  length crops = (length imgs `min` length mid_eyes)%nat ∧
  ∀ (i : nat) crop,
    crops !! i = Some crop →
    ∃ img,
      imgs !! i = Some img ∧
      (height crop ≤ height img)%nat ∧ (width crop ≤ width img)%nat ∧
      channels crop = channels img ∧
      Forall (λ row, ∃ row' l1 l2,
                row' ∈ pixels img ∧ row' = l1 ++ row ++ l2) (pixels crop) ∧
      (well_formed img → well_formed crop).
Proof.
  intros Hrun.
  apply align_eyes_inr in Hrun as (img0 & lo & size & _ & _ & _ & ->).
  split; [by rewrite length_zip_with, shifts_length |].
  intros i crop Hcrop.
  apply lookup_zip_with_Some in Hcrop as (img & shift & -> & Himg & _).
  exists img. split; [done |]. rewrite crop_img_getitem.
  split; [apply slice_len_le |]. split; [apply slice_len_le |].
  split; [done |]. split; [| apply getitem_well_formed].
  apply Forall_fmap, Forall_forall. intros row Hrow.
  destruct (py_slice_infix (crop_low lo shift).1
              (int64_add (crop_low lo shift).1 size.1) row) as (l1 & l2 & Heq).
  exists row, l1, l2. split; [| exact Heq].
  destruct (py_slice_infix (crop_low lo shift).2
              (int64_add (crop_low lo shift).2 size.2) (pixels img))
    as (r1 & r2 & Hrows).
  rewrite Hrows. set_solver.
Qed.

(** ** The bounds of the shifts *)

(** X13.  On each axis, [bound_low] (the column-wise maximum of the shifts)
    is a NaN or at least every shift of the batch, and the column-wise
    minimum is a NaN or at most every shift: numpy's reductions let a NaN
    through, and otherwise they bound the column. *)
Theorem bound_low_bounds_shifts (mid_eyes : list point) (lo mn shift : point) :
  bound_low mid_eyes = Some lo →
  min_axis0 (shifts mid_eyes) = Some mn →
  shift ∈ shifts mid_eyes →
  (is_nan lo.1 = true ∨ (shift.1 <=? lo.1)%float = true) ∧
  (is_nan lo.2 = true ∨ (shift.2 <=? lo.2)%float = true) ∧
  (is_nan mn.1 = true ∨ (mn.1 <=? shift.1)%float = true) ∧
  (is_nan mn.2 = true ∨ (mn.2 <=? shift.2)%float = true).
Proof.
  intros Hlo Hmn Hin.
  destruct (max_axis0_ge _ _ _ Hlo Hin) as [? ?].
  destruct (min_axis0_le _ _ _ Hmn Hin) as [? ?].
  done.
Qed.

(** X4.  On each axis on which [bound_low] is finite, the crop of some
    image starts at the edge of the image: its origin is 0 (the image whose
    shift is the largest). *)
Theorem align_eyes_tight (mid_eyes : list point) (lo : point) :
  bound_low mid_eyes = Some lo →
  (is_finite lo.1 = true →
   ∃ mid, mid ∈ mid_eyes ∧
     (crop_low lo (psub (dist_mid_eye mid_eyes) mid)).1 = 0) ∧
  (is_finite lo.2 = true →
   ∃ mid, mid ∈ mid_eyes ∧
     (crop_low lo (psub (dist_mid_eye mid_eyes) mid)).2 = 0).
Proof.
  intros Hlo.
  destruct (max_axis0_attained _ _ Hlo) as [(sx & Hsx & Ex) (sy & Hsy & Ey)].
  apply list_elem_of_fmap in Hsx as (mx & -> & Hmx).
  apply list_elem_of_fmap in Hsy as (my & -> & Hmy).
  split; intros Hfin.
  - exists mx. split; [done |].
    change (astype_int (lo.1 - (psub (dist_mid_eye mid_eyes) mx).1) = 0).
    by rewrite Ex, sub_diag.
  - exists my. split; [done |].
    change (astype_int (lo.2 - (psub (dist_mid_eye mid_eyes) my).2) = 0).
    by rewrite Ey, sub_diag.
Qed.

(** ** [main], image by image *)

Section MainRuns.
Context {pixel : Type}.
Implicit Types (img : ndarray pixel) (imgs log : list (ndarray pixel)).
Implicit Types (b : batch pixel).
Variable detect_faces : ndarray pixel → gmap string face.

(** The outcome of [find_mid_eye] does not depend on the calls made
    before. *)
Lemma find_mid_eye_run img log :
  find_mid_eye detect_faces img log
  = ((find_mid_eye detect_faces img []).1, log ++ [img]).
Proof.
  unfold find_mid_eye, bind, detect, raise, ret.
  destruct (size (detect_faces img) =? 0)%nat; [done |].
  destruct (2 <=? size (detect_faces img))%nat; [done |].
  by destruct (detect_faces img !! "face_1").
Qed.

Lemma find_mid_eye_inl img log (e : exn) :
  (find_mid_eye detect_faces img log).1 = inl e →
  e = FaceDetectionError "No face detected." ∨
  e = FaceDetectionError "Too many faces detected." ∨
  e = KeyError "face_1".
Proof.
  unfold find_mid_eye, bind, detect, raise, ret.
  destruct (size (detect_faces img) =? 0)%nat; [intros [= <-]; auto |].
  destruct (2 <=? size (detect_faces img))%nat; [intros [= <-]; auto |].
  destruct (detect_faces img !! "face_1"); [done | intros [= <-]; auto].
Qed.

Lemma find_mid_eye_inr img log (m : point) :
  (find_mid_eye detect_faces img log).1 = inr m ↔
  ∃ f, size (detect_faces img) = 1%nat ∧
       detect_faces img !! "face_1" = Some f ∧ m = mid_eye f.
Proof.
  split.
  - unfold find_mid_eye, bind, detect, raise, ret.
    destruct (Nat.eqb_spec (size (detect_faces img)) 0); [done |].
    destruct (Nat.leb_spec 2 (size (detect_faces img))); [done |].
    destruct (detect_faces img !! "face_1") as [f |]; [| done].
    intros [= <-]. exists f. split; [lia | done].
  - intros (f & Hone & Hkey & ->).
    by rewrite find_mid_eye_one_face, Hkey.
Qed.

Lemma for_each_cons {A B} (f : A → M B) (x : A) (xs : list A) log :
  for_each f (x :: xs) log
  = match f x log with
    | (inr y, log') =>
        match for_each f xs log' with
        | (inr ys, log'') => (inr (y :: ys), log'')
        | (inl e, log'') => (inl e, log'')
        end
    | (inl e, log') => (inl e, log')
    end.
Proof. reflexivity. Qed.

(** The comprehension either gets a midpoint from every image, or stops at
    the first image for which [find_mid_eye] raises; the detector has then
    seen exactly the images up to that one. *)
Lemma for_each_find_mid_eye_run imgs log :
  (∃ mid_eyes,
     for_each (find_mid_eye detect_faces) imgs log
     = (inr mid_eyes, log ++ imgs) ∧
     Forall2 (λ img m, (find_mid_eye detect_faces img []).1 = inr m)
       imgs mid_eyes) ∨
  (∃ before img after mid_eyes e,
     imgs = before ++ img :: after ∧
     Forall2 (λ img m, (find_mid_eye detect_faces img []).1 = inr m)
       before mid_eyes ∧
     (find_mid_eye detect_faces img []).1 = inl e ∧
     for_each (find_mid_eye detect_faces) imgs log
     = (inl e, log ++ before ++ [img])).
Proof.
  revert log. induction imgs as [| img imgs IH]; intros log.
  - left. exists []. split; [| constructor].
    simpl. unfold ret. by rewrite app_nil_r.
  - rewrite !for_each_cons, find_mid_eye_run.
    destruct (find_mid_eye detect_faces img []).1 as [e | m] eqn:Hres.
    + right. exists [], img, imgs, [], e.
      split; [done |]. split; [constructor |]. split; [done |]. done.
    + destruct (IH (log ++ [img])) as
        [(mids & Hrun & Hall)
        | (before & img' & after & mids & e & -> & Hall & Hfail & Hrun)].
      * left. exists (m :: mids). rewrite Hrun, <- app_assoc.
        split; [done | by constructor].
      * right. exists (img :: before), img', after, (m :: mids), e.
        split; [done |]. split; [by constructor |]. split; [done |].
        rewrite Hrun. by rewrite <- !app_assoc.
Qed.

(** [main] on a batch of two or more images of one shape. *)
Lemma main_same_shapes b log img0 :
  (2 ≤ length (items b))%nat → head (items b) = Some img0 →
  Forall (λ img, shape img = shape img0) (items b) →
  main detect_faces b log
  = match for_each (find_mid_eye detect_faces) (items b) log with
    | (inr mid_eyes, log') =>
        (sum_map id (mk_batch PyList) (align_eyes (items b) mid_eyes), log')
    | (inl e, log') => (inl e, log')
    end.
Proof.
  intros Hlen Hhd Hshape.
  destruct (items b) as [| img0' [| img1 imgs]] eqn:E; simpl in Hlen; try lia.
  injection Hhd as ->.
  rewrite (main_long _ _ _ _ _ _ E), E. unfold bind at 1.
  rewrite check_shapes_same by done.
  unfold bind at 1.
  destruct (for_each (find_mid_eye detect_faces) (img0 :: img1 :: imgs) log)
    as [[e | mids] log']; [done |].
  unfold bind, lift, ret.
  by destruct (align_eyes (img0 :: img1 :: imgs) mids).
Qed.

Lemma main_other_shape b log img0 :
  (2 ≤ length (items b))%nat → head (items b) = Some img0 →
  ¬ Forall (λ img, shape img = shape img0) (items b) →
  ∃ img, img ∈ items b ∧ shape img ≠ shape img0 ∧
    main detect_faces b log
    = (inl (ValueError (incompatible_shapes (shape img) (shape img0))), log).
Proof.
  intros Hlen Hhd Hdiff.
  destruct (first_failure _ (items b) Hdiff)
    as (pre & img & post & Heq & Hpre & Himg).
  exists img. split; [rewrite Heq; set_solver |]. split; [done |].
  destruct (items b) as [| img0' [| img1 imgs]] eqn:E; simpl in Hlen; try lia.
  injection Hhd as ->.
  rewrite (main_long _ _ _ _ _ _ E), E, Heq. unfold bind at 1.
  by rewrite check_shapes_differ.
Qed.

(** With a midpoint for every image of a batch that is not empty,
    [align_eyes] returns. *)
Lemma align_eyes_returns imgs (mid_eyes : list point) :
  imgs ≠ [] → length mid_eyes = length imgs →
  ∃ crops, align_eyes imgs mid_eyes = inr crops ∧
           length crops = length imgs.
Proof.
  intros Hne Hlen.
  destruct imgs as [| img0 imgs']; [done |].
  assert (mid_eyes ≠ []) as Hmids by (by destruct mid_eyes).
  destruct (bound_low_is_Some mid_eyes Hmids) as [lo Hlo].
  destruct (bound_low_to_high_is_Some img0 mid_eyes Hmids) as [size Hsize].
  exists (zip_with (crop_img lo size) (img0 :: imgs') (shifts mid_eyes)).
  split; [apply align_eyes_inr; by exists img0, lo, size |].
  rewrite length_zip_with, shifts_length. lia.
Qed.
End MainRuns.

Section MainOutcomes.
Context {pixel : Type}.
Implicit Types (img : ndarray pixel) (imgs log : list (ndarray pixel)).
Variable detect_faces : ndarray pixel → gmap string face.

Lemma one_face_inr img :
  one_face detect_faces img ↔
  ∃ m, (find_mid_eye detect_faces img []).1 = inr m.
Proof.
  split.
  - intros [Hone [f Hf]]. exists (mid_eye f).
    apply find_mid_eye_inr. by exists f.
  - intros [m Hm]. apply find_mid_eye_inr in Hm as (f & Hone & Hf & _).
    split; [done | by exists f].
Qed.

(** The comprehension stops at the first image that does not show one face
    under ["face_1"]. *)
Lemma for_each_stops (before after : list (ndarray pixel)) img log (e : exn) :
  Forall (one_face detect_faces) before →
  (find_mid_eye detect_faces img []).1 = inl e →
  for_each (find_mid_eye detect_faces) (before ++ img :: after) log
  = (inl e, log ++ before ++ [img]).
Proof.
  intros Hgood Hfail. revert log.
  induction Hgood as [| img' before Hone _ IH]; intros log.
  - simpl app at 1. by rewrite for_each_cons, find_mid_eye_run, Hfail.
  - apply one_face_inr in Hone as [m Hm].
    rewrite <- app_comm_cons, for_each_cons, find_mid_eye_run, Hm, IH.
    by rewrite <- !app_assoc.
Qed.

(** On a batch of images that all show one face under ["face_1"] the
    comprehension gets a midpoint for every image. *)
Lemma for_each_succeeds imgs log :
  Forall (one_face detect_faces) imgs →
  ∃ mid_eyes,
    for_each (find_mid_eye detect_faces) imgs log = (inr mid_eyes, log ++ imgs) ∧
    length mid_eyes = length imgs.
Proof.
  intros Hgood.
  destruct (for_each_find_mid_eye_run detect_faces imgs log) as
    [(mids & Hrun & Hall)
    | (before & img & after & mids & e & -> & _ & Hfail & _)].
  - exists mids. split; [done |]. symmetry. by eapply Forall2_length.
  - apply Forall_app in Hgood as [_ Hgood].
    apply Forall_cons in Hgood as [Hone _].
    apply one_face_inr in Hone as [m Hm]. congruence.
Qed.
End MainOutcomes.

(** X5.  Whatever the detector answers, [main] hands it images of the batch
    only, in the order of the batch, each at most once and without skipping
    any: the calls made by one run of [main] are a prefix of the batch. *)
Theorem main_calls_prefix {pixel}
    (detect_faces : ndarray pixel → gmap string face)
    (imgs : batch pixel) (log : list (ndarray pixel)) :
  ∃ k : nat,
    (k ≤ length (items imgs))%nat ∧
    (main detect_faces imgs log).2 = log ++ take k (items imgs).
Proof.
  destruct (Nat.le_gt_cases (length (items imgs)) 1) as [Hshort | Hlong].
  { exists 0%nat. split; [lia |]. rewrite main_copy by done.
    simpl. by rewrite app_nil_r. }
  destruct (items imgs) as [| img0 imgs'] eqn:Heq; [simpl in Hlong; lia |].
  rewrite <- Heq in *.
  assert (head (items imgs) = Some img0) as Hhd by (by rewrite Heq).
  destruct (decide (Forall (λ img, shape img = shape img0) (items imgs)))
    as [Hsame | Hdiff].
  - rewrite (main_same_shapes _ _ _ img0) by (done || lia).
    destruct (for_each_find_mid_eye_run detect_faces (items imgs) log) as
      [(mids & -> & _)
      | (before & img & after & mids & e & Hsplit & _ & _ & ->)].
    + exists (length (items imgs)). split; [done |]. by rewrite firstn_all.
    + exists (S (length before)). rewrite Hsplit, length_app. simpl.
      split; [lia |]. f_equal.
      rewrite <- Nat.add_1_r.
      rewrite (take_app_add' before (img :: after) (length before) 1) by done.
      done.
  - destruct (main_other_shape detect_faces imgs log img0)
      as (img & _ & _ & ->); [lia | done | done |].
    exists 0%nat. split; [lia |]. simpl. by rewrite app_nil_r.
Qed.

(** X6.  [main] raises nothing but: the [AttributeError] of a tuple of at
    most one image, which has no [copy]; the [ValueError] of the shape loop,
    whose message names the shape of an image of the batch and the shape of
    the first image; the two [FaceDetectionError]s; and the [KeyError] of the
    lookup of ["face_1"].  The [IndexError] and the [ValueError] that
    [align_eyes] can raise on its own never come out of [main]. *)
Theorem main_raises_only {pixel}
    (detect_faces : ndarray pixel → gmap string face)
    (imgs : batch pixel) (log : list (ndarray pixel)) (e : exn) :
  (main detect_faces imgs log).1 = inl e →
  ((length (items imgs) ≤ 1)%nat ∧ kind imgs = PyTuple ∧
   e = AttributeError "'tuple' object has no attribute 'copy'") ∨
  (∃ img img0,
     head (items imgs) = Some img0 ∧ img ∈ items imgs ∧
     shape img ≠ shape img0 ∧
     e = ValueError (incompatible_shapes (shape img) (shape img0))) ∨
  e = FaceDetectionError "No face detected." ∨
  e = FaceDetectionError "Too many faces detected." ∨
  e = KeyError "face_1".
Proof.
  intros Hraise.
  destruct (Nat.le_gt_cases (length (items imgs)) 1) as [Hshort | Hlong].
  { left. rewrite main_copy in Hraise by done. unfold copy in Hraise.
    cbn [fst] in Hraise.
    destruct (kind imgs); [done | | done]. by injection Hraise as <-. }
  right.
  destruct (items imgs) as [| img0 imgs'] eqn:Heq; [simpl in Hlong; lia |].
  rewrite <- Heq in *.
  assert (head (items imgs) = Some img0) as Hhd by (by rewrite Heq).
  destruct (decide (Forall (λ img, shape img = shape img0) (items imgs)))
    as [Hsame | Hdiff].
  - right.
    rewrite (main_same_shapes _ _ _ img0) in Hraise by (done || lia).
    destruct (for_each_find_mid_eye_run detect_faces (items imgs) log) as
      [(mids & Hrun & Hall)
      | (before & img & after & mids & e' & _ & _ & Hfail & Hrun)];
      rewrite Hrun in Hraise; simpl in Hraise.
    + destruct (align_eyes_returns (items imgs) mids) as (crops & Hcrops & _);
        [by rewrite Heq | symmetry; by eapply Forall2_length |].
      rewrite Hcrops in Hraise. done.
    + injection Hraise as <-. by eapply find_mid_eye_inl.
  - left.
    destruct (main_other_shape detect_faces imgs log img0)
      as (img & Hin & Hne & Hrun); [lia | done | done |].
    rewrite Hrun in Hraise. injection Hraise as <-.
    by exists img, img0.
Qed.

(** X7.  On a batch of two or more same-shaped images, the first image
    that does not show one face under ["face_1"] ends the run: [main] raises
    the error of that image ([FaceDetectionError] for no face or for several
    faces, [KeyError] for one face under another key), the detector has seen
    the images up to that one, and the images after it are never handed to
    the detector. *)
Theorem main_first_failure {pixel}
    (detect_faces : ndarray pixel → gmap string face)
    (k : container) (log : list (ndarray pixel)) (img0 : ndarray pixel)
    (before : list (ndarray pixel)) (img : ndarray pixel)
    (after : list (ndarray pixel)) :
  let imgs := before ++ img :: after in
  (2 ≤ length imgs)%nat →
  head imgs = Some img0 →
  Forall (λ img', shape img' = shape img0) imgs →
  Forall (one_face detect_faces) before →
  ¬ one_face detect_faces img →
  ∃ e,
    main detect_faces (mk_batch k imgs) log = (inl e, log ++ before ++ [img]) ∧
    (size (detect_faces img) = 0%nat →
     e = FaceDetectionError "No face detected.") ∧
    ((2 ≤ size (detect_faces img))%nat →
     e = FaceDetectionError "Too many faces detected.") ∧
    (size (detect_faces img) = 1%nat → e = KeyError "face_1").
Proof.
  intros imgs Hlen Hhd Hshape Hgood Hbad.
  destruct (find_mid_eye detect_faces img []).1 as [e | m] eqn:Hres.
  2: { destruct Hbad. apply one_face_inr. by exists m. }
  exists e. split.
  - rewrite (main_same_shapes _ _ _ img0) by done.
    cbn [items]. unfold imgs. by rewrite (for_each_stops _ _ _ _ _ e).
  - split; [| split].
    + intros H0. rewrite find_mid_eye_no_face in Hres by done.
      cbn [fst] in Hres. congruence.
    + intros H2. rewrite find_mid_eye_many_faces in Hres by done.
      cbn [fst] in Hres. congruence.
    + intros H1. rewrite find_mid_eye_one_face in Hres by done.
      cbn [fst] in Hres.
      destruct (detect_faces img !! "face_1"); [done | congruence].
Qed.

(** X8.  [main] returns (raises nothing) exactly on the batches of at most
    one image that are not tuples and on the batches of two or more
    same-shaped images that each show the detector one face under
    ["face_1"]; the midpoints themselves play no part in it. *)
Theorem main_returns_iff {pixel}
    (detect_faces : ndarray pixel → gmap string face)
    (imgs : batch pixel) (log : list (ndarray pixel)) :
  (∃ out, (main detect_faces imgs log).1 = inr out) ↔
  ((length (items imgs) ≤ 1)%nat ∧ kind imgs ≠ PyTuple) ∨
  ((2 ≤ length (items imgs))%nat ∧
   ∃ img0, head (items imgs) = Some img0 ∧
           Forall (λ img, shape img = shape img0) (items imgs) ∧
           Forall (one_face detect_faces) (items imgs)).
Proof.
  destruct (Nat.le_gt_cases (length (items imgs)) 1) as [Hshort | Hlong].
  { rewrite main_copy by done. unfold copy. cbn [fst]. split.
    - intros [out Hout]. left. split; [done |]. by destruct (kind imgs).
    - intros [[_ Hk] | [? _]]; [| lia]. exists imgs. by destruct (kind imgs). }
  destruct (items imgs) as [| img0 imgs'] eqn:Heq; [simpl in Hlong; lia |].
  rewrite <- Heq in *.
  assert (head (items imgs) = Some img0) as Hhd by (by rewrite Heq).
  split.
  - intros [out Hrun]. right. split; [lia |]. exists img0. split; [done |].
    destruct (decide (Forall (λ img, shape img = shape img0) (items imgs)))
      as [Hsame | Hdiff].
    2: { destruct (main_other_shape detect_faces imgs log img0)
           as (img & _ & _ & Hraise); [lia | done | done |].
         rewrite Hraise in Hrun. done. }
    split; [done |].
    rewrite (main_same_shapes _ _ _ img0) in Hrun by (done || lia).
    destruct (for_each_find_mid_eye_run detect_faces (items imgs) log) as
      [(mids & _ & Hall)
      | (before & img & after & mids & e' & _ & _ & _ & Hfail)].
    + apply Forall_forall. intros img Himg.
      apply list_elem_of_lookup in Himg as [i Hi].
      destruct (Forall2_lookup_l _ _ _ _ _ Hall Hi) as (m & _ & Hm).
      apply one_face_inr. by exists m.
    + rewrite Hfail in Hrun. done.
  - intros [[Hshort _] | (_ & img0' & Hhd' & Hsame & Hgood)]; [lia |].
    assert (img0' = img0) as -> by congruence.
    rewrite (main_same_shapes _ _ _ img0) by (done || lia).
    destruct (for_each_succeeds detect_faces (items imgs) log Hgood)
      as (mids & -> & Hlen).
    destruct (align_eyes_returns (items imgs) mids) as (crops & Hcrops & _);
      [by rewrite Heq | done |].
    exists (mk_batch PyList crops). cbn [fst]. by rewrite Hcrops.
Qed.

(** ** The further properties at sample batches *)

Lemma align_eyes_crops_within_sample :
  ∃ crops,
    align_eyes [img_a; img_b] [(0, 0); (6, 0)]%float = inr crops ∧
    length crops = 2%nat.
Proof.
  eexists. split; [reflexivity |].
  eapply proj1.
  eapply (align_eyes_crops_within [img_a; img_b] [(0, 0); (6, 0)]%float).
  reflexivity.
Defined.

Lemma align_eyes_tight_sample :
  ∃ lo mid,
    bound_low [(0.5, 0); (2, 0)]%float = Some lo ∧
    mid ∈ [(0.5, 0); (2, 0)]%float ∧
    (crop_low lo (psub (dist_mid_eye [(0.5, 0); (2, 0)]%float) mid)).1 = 0.
Proof.
  edestruct (align_eyes_tight [(0.5, 0); (2, 0)]%float)
    as [Hx _].
  - reflexivity.
  - destruct Hx as (mid & Hmid & Hzero); [reflexivity |].
    eexists _, mid. split; [reflexivity |]. split; [exact Hmid | exact Hzero].
Defined.

Lemma bound_low_bounds_shifts_sample :
  ∃ lo mn,
    bound_low [(0.5, 0); (2, 0)]%float = Some lo ∧
    min_axis0 (shifts [(0.5, 0); (2, 0)]%float) = Some mn ∧
    (is_nan lo.1 = true ∨ (-0.75 <=? lo.1)%float = true) ∧
    (is_nan mn.1 = true ∨ (mn.1 <=? -0.75)%float = true).
Proof.
  eexists _, _. split; [reflexivity |]. split; [reflexivity |].
  edestruct (bound_low_bounds_shifts [(0.5, 0); (2, 0)]%float)
    as (Hx & _ & Hx' & _).
  - reflexivity.
  - reflexivity.
  - right. left.
  - split; [exact Hx | exact Hx'].
Defined.

Lemma main_raises_only_sample :
  ((length [img_a] ≤ 1)%nat ∧ PyTuple = PyTuple ∧
   AttributeError "'tuple' object has no attribute 'copy'"
   = AttributeError "'tuple' object has no attribute 'copy'") ∨
  (∃ img img0 : ndarray Z,
     head [img_a] = Some img0 ∧ img ∈ [img_a] ∧
     shape img ≠ shape img0 ∧
     AttributeError "'tuple' object has no attribute 'copy'"
     = ValueError (incompatible_shapes (shape img) (shape img0))) ∨
  AttributeError "'tuple' object has no attribute 'copy'"
  = FaceDetectionError "No face detected." ∨
  AttributeError "'tuple' object has no attribute 'copy'"
  = FaceDetectionError "Too many faces detected." ∨
  AttributeError "'tuple' object has no attribute 'copy'" = KeyError "face_1".
Proof.
  apply (main_raises_only count_detect (mk_batch PyTuple [img_a]) []).
  reflexivity.
Defined.

Lemma main_first_failure_sample :
  ∃ e,
    main count_detect (mk_batch PyTuple [img_a; img_blank; img_c]) []
    = (inl e, [img_a; img_blank]) ∧
    (size (count_detect img_blank) = 0%nat →
     e = FaceDetectionError "No face detected.").
Proof.
  destruct (main_first_failure count_detect PyTuple [] img_a [img_a]
              img_blank [img_c])
    as (e & Hrun & Hnone & _).
  - simpl. lia.
  - reflexivity.
  - repeat constructor.
  - constructor; [| constructor]. split; [reflexivity | by eexists].
  - intros [Hone _]. vm_compute in Hone. discriminate Hone.
  - exists e. split; [exact Hrun | exact Hnone].
Defined.
